(** * tlv: the decoder of the TLV codec (decode.go), embedded and verified

    The Go functions [readVarNum], [readTLV], [decodeUint64], [decodeValue],
    [decode] and [decodeStruct] are translated to Rocq functions over an
    explicit reader state (the bytes not yet consumed).  Go's multiple
    results become tuples; a Go [error] is an [option error] ([None] is
    [nil]); a run-time panic of the reflect package is the result [Panic].

    The reader's [Peek], [parseTag] and the encoder belong to other files of
    the repository than decode.go; they are modelled from the specification,
    each under a comment that says so. *)

From Stdlib Require Import Strings.String Strings.Byte.
From Stdlib Require Import ZArith List Bool Lia.
Import ListNotations.
Local Open Scope Z_scope.
Set Warnings "-register-all".

(** ** Bytes and integers *)

Definition bytes := list byte.

Definition byte_to_Z (b : byte) : Z := Z.of_N (Byte.to_N b).

Definition Z_to_byte (z : Z) : byte :=
  match Byte.of_N (Z.to_N (z mod 256)) with
  | Some b => b
  | None => x00
  end.

(** [binary.BigEndian.Uint16/32/64]: the bytes are shifted in, most
    significant first. *)
Definition BigEndian (b : bytes) : Z :=
  fold_left (fun acc x => Z.lor (Z.shiftl acc 8) (byte_to_Z x)) b 0.

(** ** Errors *)

Inductive error : Type :=
| ErrPacketTooLarge          (* "exceed max size" *)
| ErrNotSupported            (* "feature not supported" *)
| ErrUnexpectedType          (* "type not match" *)
| EOF                        (* io.EOF *)
| ErrUnexpectedEOF           (* io.ErrUnexpectedEOF *)
| ErrOther (msg : string).   (* an error of parseTag or of a user's UnmarshalBinary *)

Definition maxSize : Z := 8800.

(** ** The byte source

    An [io.Reader] over an in-memory byte sequence: its state is the list of
    bytes not yet read. *)

Definition Reader := bytes.

Definition NewReader (b : bytes) : Reader := b.

(** [io.ReadFull(buf, p)] with [len(p) = n], [p] zeroed beforehand: the bytes
    stored in [p], the error and the reader afterwards.  Nothing is read for
    [n = 0]; an exhausted source gives [EOF], a source that ends before [n]
    bytes gives [ErrUnexpectedEOF] after consuming what was there. *)
Definition ReadFull (buf : Reader) (n : nat) : bytes * option error * Reader :=
  match n with
  | O => ([], None, buf)
  | S _ =>
      match buf with
      | [] => (repeat x00 n, Some EOF, [])
      | _ :: _ =>
          if (n <=? length buf)%nat
          then (firstn n buf, None, skipn n buf)
          else (buf ++ repeat x00 (n - length buf), Some ErrUnexpectedEOF, [])
      end
  end.

(** ** readVarNum and readTLV *)

Definition readVarNum (buf : Reader) : Z * option error * Reader :=
  match ReadFull buf 1 with
  | (_, Some e, buf1) => (0, Some e, buf1)
  | (b, None, buf1) =>
      let b0 := byte_to_Z (hd x00 b) in
      if b0 =? 255 then
        match ReadFull buf1 8 with
        | (_, Some e, buf2) => (0, Some e, buf2)
        | (b', None, buf2) => (BigEndian b', None, buf2)
        end
      else if b0 =? 254 then
        match ReadFull buf1 4 with
        | (_, Some e, buf2) => (0, Some e, buf2)
        | (b', None, buf2) => (BigEndian b', None, buf2)
        end
      else if b0 =? 253 then
        match ReadFull buf1 2 with
        | (_, Some e, buf2) => (0, Some e, buf2)
        | (b', None, buf2) => (BigEndian b', None, buf2)
        end
      else (b0, None, buf1)
  end.

Definition readTLV (buf : Reader) : Z * bytes * option error * Reader :=
  match readVarNum buf with
  | (t, Some e, buf1) => (t, [], Some e, buf1)
  | (t, None, buf1) =>
      match readVarNum buf1 with
      | (_, Some e, buf2) => (t, [], Some e, buf2)
      | (l, None, buf2) =>
          if maxSize <? l then (t, [], Some ErrPacketTooLarge, buf2)
          else
            match ReadFull buf2 (Z.to_nat l) with
            | (v, err, buf3) => (t, v, err, buf3)
            end
      end
  end.

(** Modelled from the spec: the sentinel of Reader.Peek (reader.go is not
    among the sources), "the maximum representable value". *)
Definition peekSentinel : Z := 2 ^ 64 - 1.

(** Modelled from the spec: Reader.Peek (reader.go is not among the
    sources).  It "returns the type number of the next TLV record without
    consuming any bytes"; when no type number can be read it returns the
    sentinel. *)
Definition Peek (buf : Reader) : Z :=
  match readVarNum buf with
  | (t, None, _) => t
  | (_, Some _, _) => peekSentinel
  end.

(** ** decodeUint64 *)

Definition decodeUint64 (b : bytes) : Z :=
  match length b with
  | 8%nat | 4%nat | 2%nat => BigEndian b
  | 1%nat => byte_to_Z (hd x00 b)
  | _ => 0
  end.

(** ** Types and values, as the reflect package shows them *)

Record structTag : Type := mkTag {
  Type_ : Z;            (* tag.Type: the wire type number *)
  Optional : bool;
  Implicit : bool
}.

(** A field of a struct type.  [Tag] is what [parseTag] returns for the
    field's tag string. *)
Record StructField : Type := mkField {
  Name : string;
  Exported : bool;
  Tag : structTag + error
}.

(** Modelled from the spec: parseTag (tag.go is not among the sources).  It
    yields the field's descriptor or a descriptor-parse error; the outcome
    is carried by the field. *)
Definition parseTag (sf : StructField) : structTag + error := Tag sf.

Inductive Ty : Type :=
| TBool
| TUint64
| TUint8
| TString
| TFloat64
| TSlice (elem : Ty)
| TPtr (elem : Ty)
| TStruct (name : string) (fields : list (StructField * Ty)).

(** A slice is nil ([VNilSlice], the zero value of its type) or holds a
    list of elements ([VSlice], which may be empty); [reflect.DeepEqual]
    tells the two apart. *)
Inductive Value : Type :=
| VBool (b : bool)
| VUint64 (n : Z)
| VUint8 (b : byte)
| VString (s : bytes)
| VFloat64
| VSlice (elem : Ty) (l : list Value)      (* a slice that is not nil *)
| VNilSlice (elem : Ty)                    (* the nil slice *)
| VPtr (elem : Ty) (p : option Value)
| VStruct (name : string) (fields : list (StructField * Value)).

(** [reflect.New(t).Elem()]: the zero value of a type. *)
Fixpoint zero (t : Ty) : Value :=
  match t with
  | TBool => VBool false
  | TUint64 => VUint64 0
  | TUint8 => VUint8 x00
  | TString => VString []
  | TFloat64 => VFloat64
  | TSlice e => VNilSlice e
  | TPtr e => VPtr e None
  | TStruct name fields =>
      VStruct name (map (fun ft => (fst ft, zero (snd ft))) fields)
  end.

(** [value.Type()]. *)
Fixpoint typeOf (v : Value) : Ty :=
  match v with
  | VBool _ => TBool
  | VUint64 _ => TUint64
  | VUint8 _ => TUint8
  | VString _ => TString
  | VFloat64 => TFloat64
  | VSlice e _ => TSlice e
  | VNilSlice e => TSlice e
  | VPtr e _ => TPtr e
  | VStruct name fields =>
      TStruct name (map (fun fv => (fst fv, typeOf (snd fv))) fields)
  end.

(** The flags of a [reflect.Value] the decoder depends on. *)
Record flag : Type := mkFlag {
  flagAddr : bool;      (* the value is addressable *)
  flagRO : bool         (* the value was reached through an unexported field *)
}.

Definition CanSet (fl : flag) : bool := flagAddr fl && negb (flagRO fl).

(** [reflect.New(t).Elem()] and the referent of a non-nil pointer are
    addressable. *)
Definition flagNew : flag := mkFlag true false.
Definition flagElem (fl : flag) : flag := mkFlag true (flagRO fl).
Definition flagField (fl : flag) (sf : StructField) : flag :=
  mkFlag (flagAddr fl) (flagRO fl || negb (Exported sf)).

(** ** Results *)

Inductive result (A : Type) : Type :=
| Done (a : A)
| Panic
| Fuel.
Arguments Done {A} a.
Arguments Panic {A}.
Arguments Fuel {A}.

(** ** encoding.BinaryUnmarshaler

    A method [UnmarshalBinary] declared on a named type, with a value
    receiver (it runs on a copy and can only report an error) or with a
    pointer receiver (it may update the referent; [onNil] is its behaviour
    on a nil receiver).  [None] is a panic of the method. *)
Inductive method : Type :=
| ValueMethod (f : bytes -> Value -> option (option error))
| PointerMethod (f : bytes -> Value -> option (option error * Value))
                (onNil : bytes -> option (option error)).

Definition liftPanic {A} (o : option A) : result A :=
  match o with
  | Some a => Done a
  | None => Panic
  end.

Section Decode.

(** The methods declared in the program, by receiver base type. *)
Variable methods : Ty -> option method.

(** [value.Interface().(encoding.BinaryUnmarshaler)] followed by
    [r.UnmarshalBinary(v)].  [Interface()] boxes the value under its own
    type [T]; the assertion holds when [UnmarshalBinary] is in the method set
    of [T]: a method with a value receiver declared on [T], or, for [T] a
    pointer type [*E], a method declared on [E] with either receiver.  A
    pointer-receiver method of [T] is not in the method set of [T]. *)
Definition asBinaryUnmarshaler (value : Value)
  : option (bytes -> result (option error * Value)) :=
  match methods (typeOf value) with
  | Some (ValueMethod f) =>
      Some (fun v => liftPanic (option_map (fun e => (e, value)) (f v value)))
  | _ =>
      match value with
      | VPtr e p =>
          match methods e, p with
          | Some (ValueMethod f), Some x =>
              Some (fun v => liftPanic (option_map (fun e' => (e', value)) (f v x)))
          | Some (ValueMethod f), None =>
              Some (fun _ => Panic)
          | Some (PointerMethod f _), Some x =>
              Some (fun v =>
                      liftPanic (option_map (fun r => (fst r, VPtr e (Some (snd r)))) (f v x)))
          | Some (PointerMethod _ onNil), None =>
              Some (fun v => liftPanic (option_map (fun e' => (e', value)) (onNil v)))
          | None, _ => None
          end
      | _ => None
      end
  end.

(** [value.Kind() != reflect.Slice || value.Type().Elem().Kind() == reflect.Uint8] *)
Definition notRepeated (value : Value) : bool :=
  match value with
  | VSlice TUint8 _ | VNilSlice TUint8 => true
  | VSlice _ _ | VNilSlice _ => false
  | _ => true
  end.

(** [reflect.Append(value, elem)]: the result is never nil. *)
Definition Append (value elem : Value) : Value :=
  match value with
  | VSlice e l => VSlice e (l ++ [elem])
  | VNilSlice e => VSlice e [elem]
  | _ => value
  end.

Section Knot.

(** The recursive call into [decodeValue]. *)
Variable decodeValue : flag -> bytes -> Value -> result (option error * Value).

(** The [for] loop of [decode]; [n] bounds the iterations, [once] and the
    final [if once { err = nil }] are as in the source. *)
Fixpoint decodeLoop (n : nat) (buf : Reader) (fl : flag) (value : Value)
    (valType : Z) (once : bool) : result (option error * Value * Reader) :=
  let finish (err : option error) (value : Value) (buf : Reader) :=
    Done (if once then None else err, value, buf) in
  match n with
  | O => Fuel
  | S n' =>
      if negb (Peek buf =? valType) then finish (Some ErrUnexpectedType) value buf
      else
        match readTLV buf with
        | (_, _, Some e, buf') => finish (Some e) value buf'
        | (_, v, None, buf') =>
            match decodeValue fl v value with
            | Done (Some e, value') => finish (Some e) value' buf'
            | Done (None, value') =>
                if notRepeated value' then Done (None, value', buf')
                else decodeLoop n' buf' fl value' valType true
            | Panic => Panic
            | Fuel => Fuel
            end
        end
  end.

Definition decodeF (buf : Reader) (fl : flag) (value : Value) (valType : Z)
  : result (option error * Value * Reader) :=
  decodeLoop (S (length buf)) buf fl value valType false.

Fixpoint decodeStructF (buf : Reader) (fl : flag)
    (fields : list (StructField * Value))
  : result (option error * list (StructField * Value) * Reader) :=
  match fields with
  | [] => Done (None, [], buf)
  | (sf, fieldValue) :: rest =>
      match parseTag sf with
      | inr e => Done (Some e, fields, buf)
      | inl tag =>
          if Implicit tag then
            match decodeStructF buf fl rest with
            | Done (err, rest', buf') => Done (err, (sf, fieldValue) :: rest', buf')
            | Panic => Panic
            | Fuel => Fuel
            end
          else
            match decodeF buf (flagField fl sf) fieldValue (Type_ tag) with
            | Done (err, fieldValue', buf') =>
                match err, Optional tag with
                | Some e, false => Done (Some e, (sf, fieldValue') :: rest, buf')
                | _, _ =>
                    match decodeStructF buf' fl rest with
                    | Done (err', rest', buf'') =>
                        Done (err', (sf, fieldValue') :: rest', buf'')
                    | Panic => Panic
                    | Fuel => Fuel
                    end
                end
            | Panic => Panic
            | Fuel => Fuel
            end
      end
  end.

Definition decodeValueF (fl : flag) (v : bytes) (value : Value)
  : result (option error * Value) :=
  if flagRO fl then Panic                   (* value.Interface() *)
  else
    match asBinaryUnmarshaler value with
    | Some UnmarshalBinary => UnmarshalBinary v
    | None =>
        match value with
        | VBool _ =>
            if CanSet fl then Done (None, VBool true) else Panic
        | VUint64 _ =>
            if CanSet fl then Done (None, VUint64 (decodeUint64 v)) else Panic
        | VSlice TUint8 _ | VNilSlice TUint8 =>
            (* SetBytes(v): [v] comes from [make] in readTLV and is not nil *)
            if CanSet fl then Done (None, VSlice TUint8 (map VUint8 v)) else Panic
        | VSlice elemTy _ | VNilSlice elemTy =>
            match decodeValue flagNew v (zero elemTy) with
            | Done (Some e, _) => Done (Some e, value)
            | Done (None, elem) =>
                if CanSet fl then Done (None, Append value elem) else Panic
            | Panic => Panic
            | Fuel => Fuel
            end
        | VString _ =>
            if CanSet fl then Done (None, VString v) else Panic
        | VPtr elemTy p =>
            if CanSet fl then
              match decodeValue flagNew v (zero elemTy) with
              | Done (Some e, _) => Done (Some e, value)
              | Done (None, elem) => Done (None, VPtr elemTy (Some elem))
              | Panic => Panic
              | Fuel => Fuel
              end
            else
              match p with
              | None => Panic               (* Interface() of the zero Value *)
              | Some x =>
                  match decodeValue (flagElem fl) v x with
                  | Done (err, x') => Done (err, VPtr elemTy (Some x'))
                  | Panic => Panic
                  | Fuel => Fuel
                  end
              end
        | VStruct name fields =>
            match decodeStructF (NewReader v) fl fields with
            | Done (err, fields', _) => Done (err, VStruct name fields')
            | Panic => Panic
            | Fuel => Fuel
            end
        | _ => Done (Some ErrNotSupported, value)
        end
    end.

End Knot.

(** [decodeValue], [decode] and [decodeStruct] call each other; [fuel]
    bounds the depth of the calls of [decodeValue]. *)
Fixpoint decodeValue (fuel : nat) (fl : flag) (v : bytes) (value : Value)
  : result (option error * Value) :=
  match fuel with
  | O => Fuel
  | S fuel' => decodeValueF (decodeValue fuel') fl v value
  end.

Definition decode (fuel : nat) := decodeF (decodeValue fuel).
Definition decodeStruct (fuel : nat) := decodeStructF (decodeValue fuel).

End Decode.

(** A program that declares no [UnmarshalBinary]. *)
Definition noMethods : Ty -> option method := fun _ => None.

(** ** The arithmetic reading of a big-endian byte string *)

Definition beZ (b : bytes) : Z :=
  fold_left (fun acc x => acc * 256 + byte_to_Z x) b 0.

(** The number of bytes [readVarNum] reads after the first one. *)
Definition extraBytes (b0 : byte) : nat :=
  if byte_to_Z b0 =? 255 then 8
  else if byte_to_Z b0 =? 254 then 4
  else if byte_to_Z b0 =? 253 then 2
  else 0.

(** The number of additional bytes the specification's sentence gives for
    each marker. *)
Definition statedExtraBytes (b0 : byte) : nat :=
  if byte_to_Z b0 =? 255 then 7
  else if byte_to_Z b0 =? 254 then 3
  else if byte_to_Z b0 =? 253 then 1
  else 0.

(** ** The encoder

    encode.go is not among the sources; the encoder is written from the
    specification, sections 3, 4.1, 4.4 and 6. *)

(** The [k] low-order bytes of [v], most significant first. *)
Fixpoint beBytes (k : nat) (v : Z) : bytes :=
  match k with
  | O => []
  | S k' => beBytes k' (v / 256) ++ [Z_to_byte v]
  end.

(** Modelled from the spec: encodeVarNum (encode.go is missing).  "Encoding
    selects the narrowest form that represents the value; the first byte is
    either the literal value (0-252) or a marker byte (253: 2-byte big-endian
    follows, 254: 4-byte, 255: 8-byte)." *)
Definition encodeVarNum (v : Z) : bytes :=
  if v <=? 252 then [Z_to_byte v]
  else if v <=? 65535 then xfd :: beBytes 2 v
  else if v <=? 4294967295 then xfe :: beBytes 4 v
  else xff :: beBytes 8 v.

(** Modelled from the spec: the wire form of one record (encode.go is
    missing).  "Record := VarNum(type) VarNum(length) Payload(length bytes)". *)
Definition writeTLV (t : Z) (payload : bytes) : bytes :=
  encodeVarNum t ++ encodeVarNum (Z.of_nat (length payload)) ++ payload.

(** Modelled from the spec: the payload of an unsigned 64-bit integer
    (encode.go is missing).  "emit value in the narrowest VarNum-compatible
    width (1/2/4/8 bytes) as the record payload". *)
Definition encodeUint64 (n : Z) : bytes :=
  if n <=? 255 then beBytes 1 n
  else if n <=? 65535 then beBytes 2 n
  else if n <=? 4294967295 then beBytes 4 n
  else beBytes 8 n.

(** The bytes held by a [[]byte] value. *)
Definition rawBytes (l : list Value) : bytes :=
  map (fun x => match x with VUint8 b => b | _ => x00 end) l.

(** The outputs of a sequence of encodings, one after the other; the first
    error ends it. *)
Fixpoint concatAll (rs : list (bytes + error)) : bytes + error :=
  match rs with
  | [] => inl []
  | inr e :: _ => inr e
  | inl b :: rs' =>
      match concatAll rs' with
      | inl bs => inl (b ++ bs)
      | inr e => inr e
      end
  end.

Section Encode.

(** The [MarshalBinary] methods declared in the program. *)
Variable marshalers : Ty -> option (Value -> bytes + error).

(** Modelled from the spec: encode (encode.go is missing), after the shape
    table of section 4.4: the override hook first; a boolean is a
    zero-length record when true and nothing when false; an integer, a text
    and a raw byte sequence (nil or not) are one record; a repeated field is
    one record per element under the field's type number, so nothing when it
    is nil or empty; a reference is encoded as its
    referent; a composite is one record whose payload is the encodings of
    its non-implicit fields in order; any other shape, and a reference
    without referent, is not supported. *)
Fixpoint encode (value : Value) (valType : Z) {struct value} : bytes + error :=
  match marshalers (typeOf value) with
  | Some MarshalBinary =>
      match MarshalBinary value with
      | inl p => inl (writeTLV valType p)
      | inr e => inr e
      end
  | None =>
      match value with
      | VBool b => inl (if b then writeTLV valType [] else [])
      | VUint64 n => inl (writeTLV valType (encodeUint64 n))
      | VString s => inl (writeTLV valType s)
      | VSlice TUint8 l => inl (writeTLV valType (rawBytes l))
      | VNilSlice TUint8 => inl (writeTLV valType [])
      | VSlice _ l => concatAll (map (fun x => encode x valType) l)
      | VNilSlice _ => inl []
      | VPtr _ (Some x) => encode x valType
      | VPtr _ None => inr ErrNotSupported
      | VStruct _ fields =>
          match
            concatAll
              (map (fun f : StructField * Value =>
                      let (sf, fv) := f in
                      match parseTag sf with
                      | inr e => inr e
                      | inl tag =>
                          if Implicit tag then inl [] else encode fv (Type_ tag)
                      end) fields)
          with
          | inl p => inl (writeTLV valType p)
          | inr e => inr e
          end
      | _ => inr ErrNotSupported
      end
  end.

(** The payload of a composite. *)
Definition encodeStruct (fields : list (StructField * Value)) : bytes + error :=
  concatAll
    (map (fun f : StructField * Value =>
            let (sf, fv) := f in
            match parseTag sf with
            | inr e => inr e
            | inl tag => if Implicit tag then inl [] else encode fv (Type_ tag)
            end) fields).

End Encode.

(** A program that declares no [MarshalBinary]. *)
Definition noMarshalers : Ty -> option (Value -> bytes + error) := fun _ => None.

(** ** The values that survive the round trip *)

(** The depth of the calls of [decodeValue] a value needs. *)
Fixpoint depth (v : Value) : nat :=
  match v with
  | VSlice _ l => S (fold_right (fun x m => Nat.max (depth x) m) O l)
  | VPtr _ (Some x) => S (depth x)
  | VStruct _ fields =>
      S (fold_right
           (fun (f : StructField * Value) m =>
              Nat.max (let (_, x) := f in depth x) m) O fields)
  | _ => 1%nat
  end.

(** A value for which the encoder writes nothing: the boolean false and a
    nil repeated field. *)
Definition absent (v : Value) : bool :=
  match v with
  | VBool false => true
  | VNilSlice TUint8 => false
  | VNilSlice _ => true
  | _ => false
  end.

(** The type number of the first record that the fields put on the wire:
    that of the first field that is neither implicit nor [absent]. *)
Fixpoint nextType (fields : list (StructField * Value)) : option Z :=
  match fields with
  | [] => None
  | (sf, fv) :: rest =>
      match parseTag sf with
      | inl tag =>
          if Implicit tag || absent fv then nextType rest else Some (Type_ tag)
      | inr _ => nextType rest
      end
  end.

(** [single x]: [x] is written as exactly one record and read back from it:
    the boolean true, an integer below 2^64, a text or a non-nil raw byte
    sequence within the size limit, a slice of one such value, a reference
    to such a value, or a composite ([fieldsOK]) whose payload is within the
    size limit.

    [fieldsOK fields]: every tag parses; an implicit field holds the zero
    value of its type; an optional field may be [absent]; every other field
    is exported, has a type number below 2^64 and holds ([fieldOK]) a
    [single] value or a non-empty slice of [single] values of the element
    type.  After a field that is [absent] or a slice, for which [decode]
    peeks at what follows, the next record on the wire ([nextType]) has
    another type number. *)
Inductive single : Value -> Prop :=
| single_true : single (VBool true)
| single_uint64 (n : Z) : 0 <= n < 2 ^ 64 -> single (VUint64 n)
| single_string (s : bytes) :
    Z.of_nat (length s) <= maxSize -> single (VString s)
| single_bytes (bs : bytes) :
    Z.of_nat (length bs) <= maxSize -> single (VSlice TUint8 (map VUint8 bs))
| single_one (e : Ty) (x : Value) :
    e <> TUint8 -> single x -> typeOf x = e -> single (VSlice e [x])
| single_pointer (e : Ty) (x : Value) :
    single x -> typeOf x = e -> single (VPtr e (Some x))
| single_struct (name : string) (fields : list (StructField * Value)) (p : bytes) :
    fieldsOK fields ->
    encodeStruct noMarshalers fields = inl p ->
    Z.of_nat (length p) <= maxSize ->
    single (VStruct name fields)
with elemsOK : Ty -> list Value -> Prop :=
| elems_nil (e : Ty) : elemsOK e []
| elems_cons (e : Ty) (x : Value) (l : list Value) :
    single x -> typeOf x = e -> elemsOK e l -> elemsOK e (x :: l)
with fieldOK : Value -> Prop :=
| field_single (x : Value) : single x -> fieldOK x
| field_repeated (e : Ty) (l : list Value) :
    e <> TUint8 -> elemsOK e l -> l <> [] -> fieldOK (VSlice e l)
with fieldsOK : list (StructField * Value) -> Prop :=
| fields_nil : fieldsOK []
| fields_implicit (sf : StructField) (fv : Value)
    (rest : list (StructField * Value)) (tag : structTag) :
    parseTag sf = inl tag -> Implicit tag = true ->
    fv = zero (typeOf fv) ->
    fieldsOK rest -> fieldsOK ((sf, fv) :: rest)
| fields_absent (sf : StructField) (fv : Value)
    (rest : list (StructField * Value)) (tag : structTag) :
    parseTag sf = inl tag -> Implicit tag = false ->
    Optional tag = true ->
    absent fv = true ->
    nextType rest <> Some (Type_ tag) ->
    fieldsOK rest -> fieldsOK ((sf, fv) :: rest)
| fields_wire (sf : StructField) (fv : Value)
    (rest : list (StructField * Value)) (tag : structTag) :
    parseTag sf = inl tag -> Implicit tag = false ->
    Exported sf = true ->
    0 <= Type_ tag < 2 ^ 64 ->
    fieldOK fv ->
    (notRepeated fv = false -> nextType rest <> Some (Type_ tag)) ->
    fieldsOK rest -> fieldsOK ((sf, fv) :: rest).

(** The fields of the zero value of a composite's type. *)
Definition zeroFields (fields : list (StructField * Value))
  : list (StructField * Value) :=
  map (fun fv => (fst fv, zero (typeOf (snd fv)))) fields.

(** What the encoder writes for one field of a composite. *)
Definition encodeField (f : StructField * Value) : bytes + error :=
  let (sf, fv) := f in
  match parseTag sf with
  | inr e => inr e
  | inl tag => if Implicit tag then inl [] else encode noMarshalers fv (Type_ tag)
  end.

(** The payload of the record of a [single] value. *)
Fixpoint payloadOf (x : Value) : bytes :=
  match x with
  | VUint64 n => encodeUint64 n
  | VString s => s
  | VSlice TUint8 l => rawBytes l
  | VSlice _ [y] => payloadOf y
  | VPtr _ (Some y) => payloadOf y
  | VStruct _ fields =>
      match encodeStruct noMarshalers fields with
      | inl p => p
      | inr _ => []
      end
  | _ => []
  end.

(** The records of the elements of a repeated field. *)
Definition recordsOf (t : Z) (l : list Value) : bytes :=
  concat (map (fun x => writeTLV t (payloadOf x)) l).

(** What [if once { err = nil }] does to a result. *)
Definition suppress (r : result (option error * Value * Reader))
  : result (option error * Value * Reader) :=
  match r with
  | Done (_, value, buf) => Done (None, value, buf)
  | Panic => Panic
  | Fuel => Fuel
  end.

(** [decodeValue] with [fuel] calls in depth reads every [single] value back
    from its payload. *)
Definition roundTripsAt (fuel : nat) : Prop :=
  forall x fl,
    single x -> (depth x <= fuel)%nat -> CanSet fl = true ->
    decodeValue noMethods fuel fl (payloadOf x) (zero (typeOf x)) = Done (None, x).

(** ** The types of the test suite (encode_test.go) *)

(** A field with a tag that parses to a required, non-implicit descriptor. *)
Definition required (name : string) (t : Z) : StructField :=
  mkField name true (inl (mkTag t false false)).

(** A field with a tag that parses to an optional descriptor. *)
Definition optional (name : string) (t : Z) : StructField :=
  mkField name true (inl (mkTag t true false)).

(** [type special struct { F uint8 }]; [tagF] is what [parseTag] makes of
    the empty tag of [F]. *)
Definition specialTy (tagF : structTag + error) : Ty :=
  TStruct "special" [(mkField "F" true tagF, TUint8)].

Definition specialValue (tagF : structTag + error) (f : byte) : Value :=
  VStruct "special" [(mkField "F" true tagF, VUint8 f)].

(** [func (s *special) UnmarshalBinary(b []byte) error] *)
Definition special_UnmarshalBinary (b : bytes) (s : Value)
  : option (option error * Value) :=
  match b, s with
  | [b0], VStruct name [(sf, VUint8 _)] => Some (None, VStruct name [(sf, VUint8 b0)])
  | _, _ => Some (None, s)
  end.

(** The same method on a nil receiver: [s.F = b[0]] dereferences nil. *)
Definition special_UnmarshalBinary_nil (b : bytes) : option (option error) :=
  match b with
  | [_] => None
  | _ => Some None
  end.

Definition testMethods : Ty -> option method :=
  fun t =>
    match t with
    | TStruct "special" _ =>
        Some (PointerMethod special_UnmarshalBinary special_UnmarshalBinary_nil)
    | _ => None
    end.

(** The value of [TestTLV] without its field [Special]; the untagged field
    [unexported] is taken to parse as implicit. *)
Definition sampleValue : Value :=
  VStruct "test"
    [(required "Num" 255,
      VSlice TUint64
        [VUint64 255; VUint64 65535; VUint64 4294967295;
         VUint64 18446744073709551615]);
     (required "String" 65535, VString [x73; x74; x72; x69; x6e; x67]);
     (required "Byte" 4294967295, VSlice TUint8 [VUint8 x01; VUint8 x02; VUint8 x03]);
     (required "Bool" 18446744073709551615, VBool true);
     (mkField "unexported" false (inl (mkTag 0 false true)), VUint8 x00)].

(** A composite around [sampleValue]: an optional repeated field left nil,
    a raw byte sequence that is empty and not nil, two fields that share a
    type number, a reference to a slice of one element, and a repeated field
    of slices of one element. *)
Definition mixedValue : Value :=
  VStruct "mixed"
    [(required "Test" 1, sampleValue);
     (optional "Opt" 7, VNilSlice TUint64);
     (optional "Off" 7, VBool false);
     (required "Empty" 8, VSlice TUint8 []);
     (required "A" 9, VUint64 1);
     (required "B" 9, VUint64 2);
     (required "P" 10, VPtr (TSlice TUint64) (Some (VSlice TUint64 [VUint64 3])));
     (required "Rows" 11,
      VSlice (TSlice TUint64)
        [VSlice TUint64 [VUint64 4]; VSlice TUint64 [VUint64 5]])].

(** A composite with one required boolean field, false. *)
Definition falseFlagValue : Value :=
  VStruct "flags" [(required "Set" 2, VBool false)].

(** ** Unmarshal

    [decode(buf, reflect.Indirect(reflect.ValueOf(i)), valType)].  A value
    boxed in [i] is not addressable; the referent of a non-nil pointer is.
    For a nil pointer [Indirect] gives the zero [reflect.Value]: [decode]
    peeks and reads the record, and [decodeValue] panics in [Interface()]. *)
Definition Unmarshal (methods : Ty -> option method) (fuel : nat) (buf : Reader)
    (i : Value) (valType : Z) : result (option error * Value * Reader) :=
  match i with
  | VPtr e (Some x) =>
      match decode methods fuel buf flagNew x valType with
      | Done (err, x', buf') => Done (err, VPtr e (Some x'), buf')
      | Panic => Panic
      | Fuel => Fuel
      end
  | VPtr e None =>
      match decodeF (fun _ _ _ => Panic) buf flagNew i valType with
      | Done (err, _, buf') => Done (err, i, buf')
      | Panic => Panic
      | Fuel => Fuel
      end
  | _ => decode methods fuel buf (mkFlag false false) i valType
  end.

(** [func (s *special) MarshalBinary() ([]byte, error)] of the test suite;
    [None] is the panic of [s.F] on a receiver that is no [special]. *)
Definition special_MarshalBinary (s : Value) : option (bytes * option error) :=
  match s with
  | VStruct _ [(_, VUint8 f)] => Some ([f], None)
  | _ => None
  end.

(** ** Measures and shapes used in the statements *)

(** The nesting depth of a type. *)
Fixpoint tyDepth (t : Ty) : nat :=
  match t with
  | TSlice e => S (tyDepth e)
  | TPtr e => S (tyDepth e)
  | TStruct _ fields =>
      S (fold_right
           (fun (f : StructField * Ty) m =>
              Nat.max (let (_, ft) := f in tyDepth ft) m) O fields)
  | _ => 1%nat
  end.

(** The depth of calls of [decodeValue] that decoding into a value can
    reach: that of its type, and that of the referents it holds. *)
Fixpoint fuelFor (v : Value) : nat :=
  match v with
  | VSlice e _ => S (tyDepth e)
  | VNilSlice e => S (tyDepth e)
  | VPtr e None => S (tyDepth e)
  | VPtr e (Some x) => S (Nat.max (tyDepth e) (fuelFor x))
  | VStruct _ fields =>
      S (fold_right
           (fun (f : StructField * Value) m =>
              Nat.max (let (_, x) := f in fuelFor x) m) O fields)
  | _ => 1%nat
  end.

(** The types that end, through slices and pointers, in a kind the decoder
    has no case for. *)
Fixpoint unsupportedKind (t : Ty) : bool :=
  match t with
  | TUint8 | TFloat64 => true
  | TSlice TUint8 => false
  | TSlice e => unsupportedKind e
  | TPtr e => unsupportedKind e
  | _ => false
  end.

(** Every tag parses. *)
Definition tagsParse (fields : list (StructField * Value)) : Prop :=
  Forall (fun f : StructField * Value =>
            exists tag, parseTag (fst f) = inl tag) fields.

(** Some field is neither implicit nor optional. *)
Fixpoint hasRequired (fields : list (StructField * Value)) : bool :=
  match fields with
  | [] => false
  | (sf, _) :: rest =>
      match parseTag sf with
      | inl tag => (negb (Implicit tag) && negb (Optional tag)) || hasRequired rest
      | inr _ => hasRequired rest
      end
  end.

(** Induction on types, through the fields of struct types. *)
Section TyInduction.

Variable P : Ty -> Prop.
Hypothesis PBool : P TBool.
Hypothesis PUint64 : P TUint64.
Hypothesis PUint8 : P TUint8.
Hypothesis PString : P TString.
Hypothesis PFloat64 : P TFloat64.
Hypothesis PSlice : forall e, P e -> P (TSlice e).
Hypothesis PPtr : forall e, P e -> P (TPtr e).
Hypothesis PStruct :
  forall name fields,
    Forall (fun f : StructField * Ty => P (snd f)) fields -> P (TStruct name fields).

Fixpoint Ty_nested_ind (t : Ty) : P t :=
  match t with
  | TBool => PBool
  | TUint64 => PUint64
  | TUint8 => PUint8
  | TString => PString
  | TFloat64 => PFloat64
  | TSlice e => PSlice e (Ty_nested_ind e)
  | TPtr e => PPtr e (Ty_nested_ind e)
  | TStruct name fields =>
      PStruct name fields
        ((fix go (l : list (StructField * Ty))
            : Forall (fun f : StructField * Ty => P (snd f)) l :=
            match l with
            | [] => Forall_nil _
            | f :: l' => Forall_cons f (Ty_nested_ind (snd f)) (go l')
            end) fields)
  end.

End TyInduction.

(** The kinds whose case in [decodeValue] is a single [Set...] call on the
    value itself. *)
Definition storesDirectly (v : Value) : bool :=
  match v with
  | VBool _ | VUint64 _ | VString _ | VSlice TUint8 _ | VNilSlice TUint8 => true
  | _ => false
  end.

(* ================================================================== *)
(** * Properties *)

(** ** Bytes *)

Lemma byte_to_Z_range (b : byte) : 0 <= byte_to_Z b < 256.
Proof.
  unfold byte_to_Z. pose proof (Byte.to_N_bounded b). lia.
Qed.

Lemma lor_shift_byte (acc x : Z) :
  0 <= x < 256 -> Z.lor (Z.shiftl acc 8) x = acc * 256 + x.
Proof.
  intros Hx.
  rewrite Z.shiftl_mul_pow2 by lia.
  change (2 ^ 8) with 256.
  assert (Hland : Z.land (acc * 256) x = 0).
  { apply Z.bits_inj'. intros n Hn.
    rewrite Z.land_spec, Z.bits_0.
    destruct (Z.ltb_spec n 8) as [Hlt | Hge].
    - change 256 with (2 ^ 8). rewrite Z.mul_pow2_bits_low by lia. reflexivity.
    - assert (Hb : Z.testbit x n = false).
      { destruct (Z.eq_dec x 0) as [-> | Hnz]; [apply Z.bits_0 |].
        apply Z.bits_above_log2; [lia |].
        apply Z.lt_le_trans with 8; [| lia].
        apply Z.log2_lt_pow2; [lia | change (2 ^ 8) with 256; lia]. }
      rewrite Hb. apply andb_false_r. }
  rewrite <- (Z.lxor_lor _ _ Hland).
  symmetry. apply Z.add_nocarry_lxor. exact Hland.
Qed.

Lemma fold_BigEndian (b : bytes) (acc : Z) :
  fold_left (fun a x => Z.lor (Z.shiftl a 8) (byte_to_Z x)) b acc
  = fold_left (fun a x => a * 256 + byte_to_Z x) b acc.
Proof.
  revert acc. induction b as [| x b IH]; intros acc; cbn [fold_left]; [reflexivity |].
  rewrite lor_shift_byte by apply byte_to_Z_range. apply IH.
Qed.

Lemma BigEndian_beZ (b : bytes) : BigEndian b = beZ b.
Proof. apply fold_BigEndian. Qed.

(** ** ReadFull *)

Lemma ReadFull_enough (buf : Reader) (n : nat) :
  (n <= length buf)%nat -> ReadFull buf n = (firstn n buf, None, skipn n buf).
Proof.
  intros Hn. destruct n as [| n]; [reflexivity |].
  destruct buf as [| b buf]; [simpl in Hn; lia |].
  unfold ReadFull.
  destruct (Nat.leb_spec (S n) (length (b :: buf))); [reflexivity | lia].
Qed.

Lemma ReadFull_short (buf : Reader) (n : nat) :
  (length buf < n)%nat ->
  ReadFull buf n
  = (buf ++ repeat x00 (n - length buf),
     Some (match buf with [] => EOF | _ => ErrUnexpectedEOF end), []).
Proof.
  intros Hn. destruct n as [| n]; [lia |].
  destruct buf as [| b buf]; [reflexivity |].
  unfold ReadFull.
  destruct (Nat.leb_spec (S n) (length (b :: buf))); [lia | reflexivity].
Qed.

Lemma ReadFull_ok_inv (buf : Reader) (n : nat) (p : bytes) (buf' : Reader) :
  ReadFull buf n = (p, None, buf') ->
  (n <= length buf)%nat /\ p = firstn n buf /\ buf' = skipn n buf.
Proof.
  intros H. destruct (Nat.le_gt_cases n (length buf)) as [Hle | Hgt].
  - rewrite ReadFull_enough in H by exact Hle. inversion H. auto.
  - rewrite ReadFull_short in H by exact Hgt. discriminate H.
Qed.

(** ** readVarNum *)

Lemma readVarNum_nil : readVarNum [] = (0, Some EOF, []).
Proof. reflexivity. Qed.

Lemma readVarNum_cons (b0 : byte) (rest : Reader) :
  readVarNum (b0 :: rest)
  = if (extraBytes b0 =? 0)%nat then (byte_to_Z b0, None, rest)
    else if (extraBytes b0 <=? length rest)%nat
    then (beZ (firstn (extraBytes b0) rest), None, skipn (extraBytes b0) rest)
    else (0, Some (match rest with [] => EOF | _ => ErrUnexpectedEOF end), []).
Proof.
  unfold readVarNum, extraBytes.
  change (ReadFull (b0 :: rest) 1) with ([b0], @None error, rest).
  cbv beta iota. change (hd x00 [b0]) with b0.
  destruct (byte_to_Z b0 =? 255);
    [| destruct (byte_to_Z b0 =? 254);
       [| destruct (byte_to_Z b0 =? 253); [| reflexivity]]].
  all: cbn [Nat.eqb];
    match goal with
    | |- context [ReadFull ?r ?k] =>
        destruct (Nat.leb_spec k (length r)) as [Hle | Hgt];
        [ rewrite ReadFull_enough by exact Hle; rewrite BigEndian_beZ; reflexivity
        | rewrite ReadFull_short by exact Hgt; reflexivity ]
    end.
Qed.

Lemma readVarNum_shrinks (buf : Reader) (t : Z) (buf' : Reader) :
  readVarNum buf = (t, None, buf') -> (length buf' < length buf)%nat.
Proof.
  destruct buf as [| b0 rest]; [rewrite readVarNum_nil; discriminate |].
  rewrite readVarNum_cons.
  destruct (extraBytes b0 =? 0)%nat.
  - intros H. inversion H. simpl. lia.
  - destruct (extraBytes b0 <=? length rest)%nat; [| discriminate].
    intros H. inversion H. rewrite length_skipn. simpl. lia.
Qed.

Lemma readVarNum_error_state (buf : Reader) (t : Z) (e : error) (buf' : Reader) :
  readVarNum buf = (t, Some e, buf') -> buf' = [] /\ t = 0.
Proof.
  destruct buf as [| b0 rest]; [rewrite readVarNum_nil; intros H; inversion H; auto |].
  rewrite readVarNum_cons.
  destruct (extraBytes b0 =? 0)%nat; [discriminate |].
  destruct (extraBytes b0 <=? length rest)%nat; [discriminate |].
  intros H. inversion H. auto.
Qed.

(** ** readTLV *)

Lemma readTLV_too_large (buf buf1 buf2 : Reader) (t l : Z) :
  readVarNum buf = (t, None, buf1) ->
  readVarNum buf1 = (l, None, buf2) ->
  maxSize < l ->
  readTLV buf = (t, [], Some ErrPacketTooLarge, buf2).
Proof.
  intros Ht Hl Hbig. unfold readTLV. rewrite Ht, Hl.
  destruct (Z.ltb_spec maxSize l); [reflexivity | lia].
Qed.

Lemma readTLV_record (buf buf1 buf2 : Reader) (t l : Z) :
  readVarNum buf = (t, None, buf1) ->
  readVarNum buf1 = (l, None, buf2) ->
  l <= maxSize ->
  (Z.to_nat l <= length buf2)%nat ->
  readTLV buf = (t, firstn (Z.to_nat l) buf2, None, skipn (Z.to_nat l) buf2).
Proof.
  intros Ht Hl Hsmall Hlen. unfold readTLV. rewrite Ht, Hl.
  destruct (Z.ltb_spec maxSize l); [lia |].
  rewrite ReadFull_enough by exact Hlen. reflexivity.
Qed.

Lemma readTLV_shrinks (buf : Reader) (t : Z) (v : bytes) (buf' : Reader) :
  readTLV buf = (t, v, None, buf') -> (length buf' < length buf)%nat.
Proof.
  unfold readTLV.
  destruct (readVarNum buf) as [[t1 [e1 |]] buf1] eqn:H1; [discriminate |].
  destruct (readVarNum buf1) as [[l [e2 |]] buf2] eqn:H2; [discriminate |].
  destruct (maxSize <? l); [discriminate |].
  destruct (ReadFull buf2 (Z.to_nat l)) as [[p err] buf3] eqn:H3.
  intros H. inversion H; subst.
  apply readVarNum_shrinks in H1. apply readVarNum_shrinks in H2.
  apply ReadFull_ok_inv in H3 as (_ & _ & ->).
  rewrite length_skipn. lia.
Qed.

Lemma Peek_readVarNum (buf : Reader) (t : Z) (buf' : Reader) :
  readVarNum buf = (t, None, buf') -> Peek buf = t.
Proof. intros H. unfold Peek. rewrite H. reflexivity. Qed.

(** ** The loop of decode *)

Section LoopFacts.

Variable methods : Ty -> option method.
Variable decodeValue : flag -> bytes -> Value -> result (option error * Value).

Lemma decodeLoop_once_true (n : nat) (buf : Reader) (fl : flag) (value : Value)
    (valType : Z) :
  suppress (decodeLoop decodeValue n buf fl value valType true)
  = decodeLoop decodeValue n buf fl value valType true.
Proof.
  revert buf value. induction n as [| n IH]; intros buf value; [reflexivity |].
  cbn [decodeLoop].
  destruct (negb (Peek buf =? valType)); [reflexivity |].
  destruct (readTLV buf) as [[[t v] [e |]] buf']; [reflexivity |].
  destruct (decodeValue fl v value) as [[[e |] value'] | |]; try reflexivity.
  destruct (notRepeated value'); [reflexivity | apply IH].
Qed.

Lemma decodeLoop_once (n : nat) (buf : Reader) (fl : flag) (value : Value)
    (valType : Z) :
  decodeLoop decodeValue n buf fl value valType true
  = suppress (decodeLoop decodeValue n buf fl value valType false).
Proof.
  destruct n as [| n]; [reflexivity |].
  cbn [decodeLoop].
  destruct (negb (Peek buf =? valType)); [reflexivity |].
  destruct (readTLV buf) as [[[t v] [e |]] buf']; [reflexivity |].
  destruct (decodeValue fl v value) as [[[e |] value'] | |]; try reflexivity.
  destruct (notRepeated value'); [reflexivity |].
  symmetry. apply decodeLoop_once_true.
Qed.

Lemma decodeLoop_fuel (n m : nat) (buf : Reader) (fl : flag) (value : Value)
    (valType : Z) (once : bool) :
  (length buf < n)%nat -> (length buf < m)%nat ->
  decodeLoop decodeValue n buf fl value valType once
  = decodeLoop decodeValue m buf fl value valType once.
Proof.
  revert m buf value once.
  induction n as [| n IH]; intros m buf value once Hn Hm; [lia |].
  destruct m as [| m]; [lia |].
  cbn [decodeLoop].
  destruct (negb (Peek buf =? valType)); [reflexivity |].
  destruct (readTLV buf) as [[[t v] [e |]] buf'] eqn:Hr; [reflexivity |].
  apply readTLV_shrinks in Hr.
  destruct (decodeValue fl v value) as [[[e |] value'] | |]; try reflexivity.
  destruct (notRepeated value'); [reflexivity |].
  apply IH; lia.
Qed.

(** One turn of the loop of [decode], the remaining turns being [decode]
    again under [once = true]. *)
Lemma decodeF_unfold (buf : Reader) (fl : flag) (value : Value) (valType : Z) :
  decodeF decodeValue buf fl value valType
  = if negb (Peek buf =? valType) then Done (Some ErrUnexpectedType, value, buf)
    else
      match readTLV buf with
      | (_, _, Some e, buf') => Done (Some e, value, buf')
      | (_, v, None, buf') =>
          match decodeValue fl v value with
          | Done (Some e, value') => Done (Some e, value', buf')
          | Done (None, value') =>
              if notRepeated value' then Done (None, value', buf')
              else suppress (decodeF decodeValue buf' fl value' valType)
          | Panic => Panic
          | Fuel => Fuel
          end
      end.
Proof.
  unfold decodeF at 1. cbn [decodeLoop].
  destruct (negb (Peek buf =? valType)); [reflexivity |].
  destruct (readTLV buf) as [[[t v] [e |]] buf'] eqn:Hr; [reflexivity |].
  apply readTLV_shrinks in Hr.
  destruct (decodeValue fl v value) as [[[e |] value'] | |]; try reflexivity.
  destruct (notRepeated value'); [reflexivity |].
  rewrite decodeLoop_once. unfold decodeF.
  f_equal. apply decodeLoop_fuel; lia.
Qed.

(** The loop never runs out of turns. *)
Lemma decodeLoop_total (n : nat) (buf : Reader) (fl : flag) (value : Value)
    (valType : Z) (once : bool) :
  (length buf < n)%nat ->
  (forall fl' v value', decodeValue fl' v value' <> Fuel) ->
  decodeLoop decodeValue n buf fl value valType once <> Fuel.
Proof.
  intros Hn Hdv. revert buf value once Hn.
  induction n as [| n IH]; intros buf value once Hn; [lia |].
  cbn [decodeLoop].
  destruct (negb (Peek buf =? valType)); [discriminate |].
  destruct (readTLV buf) as [[[t v] [e |]] buf'] eqn:Hr; [discriminate |].
  apply readTLV_shrinks in Hr.
  destruct (decodeValue fl v value) as [[[e |] value'] | |] eqn:Hd;
    try discriminate.
  - destruct (notRepeated value'); [discriminate |]. apply IH. lia.
  - exfalso. exact (Hdv _ _ _ Hd).
Qed.

End LoopFacts.

(** ** decodeStruct, field by field *)

Section StructFacts.

Variable decodeValue : flag -> bytes -> Value -> result (option error * Value).

Lemma decodeStructF_app (buf : Reader) (fl : flag)
    (pre post : list (StructField * Value)) :
  decodeStructF decodeValue buf fl (pre ++ post)
  = match decodeStructF decodeValue buf fl pre with
    | Done (None, pre', buf') =>
        match decodeStructF decodeValue buf' fl post with
        | Done (err, post', buf'') => Done (err, pre' ++ post', buf'')
        | Panic => Panic
        | Fuel => Fuel
        end
    | Done (Some e, pre', buf') => Done (Some e, pre' ++ post, buf')
    | Panic => Panic
    | Fuel => Fuel
    end.
Proof.
  revert buf. induction pre as [| [sf fv] pre IH]; intros buf.
  - cbn [app decodeStructF].
    destruct (decodeStructF decodeValue buf fl post) as [[[err post'] buf'] | |];
      reflexivity.
  - cbn [app decodeStructF].
    destruct (parseTag sf) as [tag | e]; [| reflexivity].
    destruct (Implicit tag).
    + rewrite IH.
      destruct (decodeStructF decodeValue buf fl pre) as [[[[e |] pre'] buf'] | |];
        try reflexivity.
      destruct (decodeStructF decodeValue buf' fl post) as [[[err post'] buf''] | |];
        reflexivity.
    + destruct (decodeF decodeValue buf (flagField fl sf) fv (Type_ tag))
        as [[[err fv'] buf1] | |]; try reflexivity.
      assert (Hgo :
        match decodeStructF decodeValue buf1 fl (pre ++ post) with
        | Done (err', rest', buf'') => Done (err', (sf, fv') :: rest', buf'')
        | Panic => Panic
        | Fuel => Fuel
        end
        = match
            match decodeStructF decodeValue buf1 fl pre with
            | Done (err', rest', buf'') => Done (err', (sf, fv') :: rest', buf'')
            | Panic => Panic
            | Fuel => Fuel
            end
          with
          | Done (None, pre', buf') =>
              match decodeStructF decodeValue buf' fl post with
              | Done (err0, post', buf'') => Done (err0, pre' ++ post', buf'')
              | Panic => Panic
              | Fuel => Fuel
              end
          | Done (Some e, pre', buf') => Done (Some e, pre' ++ post, buf')
          | Panic => Panic
          | Fuel => Fuel
          end).
      { rewrite IH.
        destruct (decodeStructF decodeValue buf1 fl pre)
          as [[[[e |] pre'] buf'] | |]; try reflexivity.
        destruct (decodeStructF decodeValue buf' fl post)
          as [[[err0 post'] buf''] | |]; reflexivity. }
      destruct err as [e |]; [destruct (Optional tag) |]; try exact Hgo.
      reflexivity.
Qed.

Lemma decodeStructF_length (buf : Reader) (fl : flag)
    (fields fields' : list (StructField * Value)) (err : option error)
    (buf' : Reader) :
  decodeStructF decodeValue buf fl fields = Done (err, fields', buf') ->
  length fields' = length fields.
Proof.
  revert buf fields' err buf'.
  induction fields as [| [sf fv] rest IH]; intros buf fields' err buf' H.
  - cbn in H. inversion H. reflexivity.
  - cbn [decodeStructF] in H.
    destruct (parseTag sf) as [tag | e]; [| inversion H; reflexivity].
    destruct (Implicit tag).
    + destruct (decodeStructF decodeValue buf fl rest)
        as [[[err1 rest1] buf1] | |] eqn:Hrest; try discriminate.
      inversion H; subst. cbn [length]. f_equal. eapply IH. exact Hrest.
    + destruct (decodeF decodeValue buf (flagField fl sf) fv (Type_ tag))
        as [[[err1 fv1] buf1] | |]; try discriminate.
      assert (Hgo :
        match decodeStructF decodeValue buf1 fl rest with
        | Done (err', rest', buf'') => Done (err', (sf, fv1) :: rest', buf'')
        | Panic => Panic
        | Fuel => Fuel
        end = Done (err, fields', buf') -> length fields' = length ((sf, fv) :: rest)).
      { destruct (decodeStructF decodeValue buf1 fl rest)
          as [[[err2 rest2] buf2] | |] eqn:Hrest; try discriminate.
        intros H'. inversion H'; subst. cbn [length]. f_equal.
        eapply IH. exact Hrest. }
      destruct err1 as [e |]; [destruct (Optional tag) |]; auto.
      inversion H; subst. reflexivity.
Qed.

(** A field whose type number is not the next one on the wire. *)
Lemma decodeStructF_absent (buf : Reader) (fl : flag) (sf : StructField)
    (fv : Value) (rest : list (StructField * Value)) (tag : structTag) :
  parseTag sf = inl tag -> Implicit tag = false -> Peek buf <> Type_ tag ->
  decodeStructF decodeValue buf fl ((sf, fv) :: rest)
  = if Optional tag then
      match decodeStructF decodeValue buf fl rest with
      | Done (err, rest', buf') => Done (err, (sf, fv) :: rest', buf')
      | Panic => Panic
      | Fuel => Fuel
      end
    else Done (Some ErrUnexpectedType, (sf, fv) :: rest, buf).
Proof.
  intros Htag Himp Hpeek. cbn [decodeStructF]. rewrite Htag, Himp.
  rewrite decodeF_unfold.
  destruct (Z.eqb_spec (Peek buf) (Type_ tag)) as [Heq | _]; [contradiction |].
  cbn [negb]. destruct (Optional tag); reflexivity.
Qed.

(** A field marked implicit. *)
Lemma decodeStructF_implicit (buf : Reader) (fl : flag) (sf : StructField)
    (fv : Value) (rest : list (StructField * Value)) (tag : structTag) :
  parseTag sf = inl tag -> Implicit tag = true ->
  decodeStructF decodeValue buf fl ((sf, fv) :: rest)
  = match decodeStructF decodeValue buf fl rest with
    | Done (err, rest', buf') => Done (err, (sf, fv) :: rest', buf')
    | Panic => Panic
    | Fuel => Fuel
    end.
Proof.
  intros Htag Himp. cbn [decodeStructF]. rewrite Htag, Himp. reflexivity.
Qed.

End StructFacts.

(* ================================================================== *)
(** * The claims *)

(** ** readVarNum (C5) *)

(** C5, as the code has it: [readVarNum] fails with [EOF] on an exhausted
    source; otherwise it reads the first byte, a first byte of 0..252 is the
    value itself and nothing more is read, and after the markers 253, 254 and
    255 it reads 2, 4 and 8 further bytes and returns their big-endian value;
    when fewer bytes are left it returns the error of the short read ([EOF]
    when none is left, [ErrUnexpectedEOF] otherwise). *)
Theorem readVarNum_marker_table (b0 : byte) (rest : Reader) :
  readVarNum [] = (0, Some EOF, [])
  /\ extraBytes b0
     = (if byte_to_Z b0 <=? 252 then 0%nat
        else if byte_to_Z b0 =? 253 then 2%nat
        else if byte_to_Z b0 =? 254 then 4%nat else 8%nat)
  /\ readVarNum (b0 :: rest)
     = (if (extraBytes b0 =? 0)%nat then (byte_to_Z b0, None, rest)
        else if (extraBytes b0 <=? length rest)%nat
        then (beZ (firstn (extraBytes b0) rest), None, skipn (extraBytes b0) rest)
        else (0, Some (match rest with [] => EOF | _ => ErrUnexpectedEOF end), [])).
Proof.
  split; [reflexivity |]. split; [| apply readVarNum_cons].
  unfold extraBytes. pose proof (byte_to_Z_range b0) as Hr.
  destruct (Z.leb_spec (byte_to_Z b0) 252);
    destruct (Z.eqb_spec (byte_to_Z b0) 255);
    destruct (Z.eqb_spec (byte_to_Z b0) 254);
    destruct (Z.eqb_spec (byte_to_Z b0) 253); try reflexivity; lia.
Qed.

(** C5 as stated fails: after the marker 253 two further bytes are read, not
    one. *)
Lemma readVarNum_reads_two_after_253 :
  readVarNum [xfd; x01; x02; x03] = (258, None, [x03])
  /\ (length [x01; x02; x03] - length [x03])%nat <> statedExtraBytes xfd.
Proof. split; [reflexivity | vm_compute; discriminate]. Qed.

(** ** decodeUint64 (C4) *)

Lemma decodeUint64_beZ (v : bytes) :
  decodeUint64 v
  = if existsb (Nat.eqb (length v)) [1; 2; 4; 8]%nat then beZ v else 0.
Proof.
  unfold decodeUint64.
  destruct v as [| b1 [| b2 [| b3 [| b4 [| b5 [| b6 [| b7 [| b8 [| b9 v]]]]]]]]];
    try reflexivity; try (rewrite BigEndian_beZ; reflexivity).
Qed.

Lemma CanSet_flagRO (fl : flag) : CanSet fl = true -> flagRO fl = false.
Proof.
  unfold CanSet. intros H. apply andb_prop in H as [_ Hro].
  apply negb_true_iff in Hro. exact Hro.
Qed.

Lemma decodeValue_scalar_uint64 (methods : Ty -> option method) (fuel : nat)
    (fl : flag) (v : bytes) (n : Z) :
  CanSet fl = true ->
  methods TUint64 = None ->
  decodeValue methods (S fuel) fl v (VUint64 n)
  = Done (None, VUint64 (decodeUint64 v)).
Proof.
  intros Hset Hm. cbn [decodeValue]. unfold decodeValueF.
  rewrite (CanSet_flagRO _ Hset).
  unfold asBinaryUnmarshaler. cbn [typeOf]. rewrite Hm, Hset. reflexivity.
Qed.

(** C4, as the code has it: a record decoded into an unsigned 64-bit value
    sets it to the big-endian value of the payload when the payload has 1, 2,
    4 or 8 bytes, and to 0, without an error, for every other length. *)
Theorem decodeValue_uint64 (methods : Ty -> option method) (fuel : nat)
    (fl : flag) (v : bytes) (n : Z) :
  CanSet fl = true ->
  methods TUint64 = None ->
  decodeValue methods (S fuel) fl v (VUint64 n)
  = Done (None,
          VUint64 (if existsb (Nat.eqb (length v)) [1; 2; 4; 8]%nat
                   then beZ v else 0)).
Proof.
  intros Hset Hm. rewrite decodeValue_scalar_uint64 by assumption.
  rewrite decodeUint64_beZ. reflexivity.
Qed.

Lemma decodeValue_uint64_witness :
  decodeValue noMethods 1 flagNew [x01; x02] (VUint64 0) = Done (None, VUint64 258).
Proof.
  exact (decodeValue_uint64 noMethods 0 flagNew [x01; x02] 0 eq_refl eq_refl).
Defined.

(** C4 as stated fails: a payload of three bytes is no decode error. *)
Lemma decodeValue_uint64_three_bytes :
  decodeValue noMethods 1 flagNew [x01; x02; x03] (VUint64 5)
  = Done (None, VUint64 0).
Proof. reflexivity. Qed.

(** ** The size limit (C2) *)

(** C2, as the code has it: when the first record read for a value declares
    a length above 8800, [readTLV] returns the size error with the reader
    left just behind the length field, whatever follows, and [decode] returns
    that error with the value untouched. *)
Theorem decode_too_large (methods : Ty -> option method) (fuel : nat)
    (buf buf1 buf2 : Reader) (t l : Z) (fl : flag) (value : Value) :
  readVarNum buf = (t, None, buf1) ->
  readVarNum buf1 = (l, None, buf2) ->
  maxSize < l ->
  readTLV buf = (t, [], Some ErrPacketTooLarge, buf2)
  /\ decode methods fuel buf fl value t
     = Done (Some ErrPacketTooLarge, value, buf2).
Proof.
  intros Ht Hl Hbig.
  pose proof (readTLV_too_large _ _ _ _ _ Ht Hl Hbig) as Hr.
  split; [exact Hr |].
  unfold decode. rewrite decodeF_unfold.
  rewrite (Peek_readVarNum _ _ _ Ht), Z.eqb_refl. cbn [negb].
  rewrite Hr. reflexivity.
Qed.

Lemma decode_too_large_witness :
  readTLV [x01; xfd; x22; x61; x05] = (1, [], Some ErrPacketTooLarge, [x05])
  /\ decode noMethods 0 [x01; xfd; x22; x61; x05] flagNew (VUint64 0) 1
     = Done (Some ErrPacketTooLarge, VUint64 0, [x05]).
Proof.
  apply (decode_too_large noMethods 0 [x01; xfd; x22; x61; x05]
           [xfd; x22; x61; x05] [x05] 1 8801 flagNew (VUint64 0)).
  - reflexivity.
  - reflexivity.
  - reflexivity.
Defined.

(** C2 as stated fails: the second record of a repeated field declares the
    length 8801, [readTLV] reports the size error for it, and [decode]
    returns no error. *)
Lemma decode_too_large_suppressed :
  readTLV [x07; xfd; x22; x61; x08; x00]
  = (7, [], Some ErrPacketTooLarge, [x08; x00])
  /\ decode noMethods 2 [x07; x01; x05; x07; xfd; x22; x61; x08; x00]
       flagNew (VSlice TUint64 []) 7
     = Done (None, VSlice TUint64 [VUint64 5], [x08; x00]).
Proof. split; reflexivity. Qed.

(** ** Repeated fields (C3) *)

Lemma asBinaryUnmarshaler_none (methods : Ty -> option method) (value : Value) :
  methods (typeOf value) = None ->
  (forall e p, value <> VPtr e p) ->
  asBinaryUnmarshaler methods value = None.
Proof.
  intros Hm Hptr. unfold asBinaryUnmarshaler. rewrite Hm.
  destruct value; try reflexivity. exfalso. eapply Hptr. reflexivity.
Qed.

Lemma decodeValue_slice (methods : Ty -> option method) (fuel : nat) (fl : flag)
    (v : bytes) (e : Ty) (l : list Value) :
  e <> TUint8 -> CanSet fl = true -> methods (TSlice e) = None ->
  decodeValue methods (S fuel) fl v (VSlice e l)
  = match decodeValue methods fuel flagNew v (zero e) with
    | Done (Some err, _) => Done (Some err, VSlice e l)
    | Done (None, elem) => Done (None, VSlice e (l ++ [elem]))
    | Panic => Panic
    | Fuel => Fuel
    end.
Proof.
  intros He Hset Hm. cbn [decodeValue]. unfold decodeValueF.
  pose proof Hset as Hset'. unfold CanSet in Hset'.
  apply andb_prop in Hset' as [_ Hro]. apply negb_true_iff in Hro.
  rewrite Hro, Hset.
  rewrite asBinaryUnmarshaler_none by first [exact Hm | discriminate].
  destruct e; try reflexivity. contradiction.
Qed.

Lemma decodeValue_nil_slice (methods : Ty -> option method) (fuel : nat)
    (fl : flag) (v : bytes) (e : Ty) :
  e <> TUint8 -> CanSet fl = true -> methods (TSlice e) = None ->
  decodeValue methods (S fuel) fl v (VNilSlice e)
  = match decodeValue methods fuel flagNew v (zero e) with
    | Done (Some err, _) => Done (Some err, VNilSlice e)
    | Done (None, elem) => Done (None, VSlice e [elem])
    | Panic => Panic
    | Fuel => Fuel
    end.
Proof.
  intros He Hset Hm. cbn [decodeValue]. unfold decodeValueF.
  pose proof Hset as Hset'. unfold CanSet in Hset'.
  apply andb_prop in Hset' as [_ Hro]. apply negb_true_iff in Hro.
  rewrite Hro, Hset.
  rewrite asBinaryUnmarshaler_none by first [exact Hm | discriminate].
  destruct e; try reflexivity. contradiction.
Qed.

(** C3: for a repeated field (a slice whose elements are not bytes),
    [decode] (1) returns the type-mismatch error, with nothing consumed and
    nothing appended, when the peeked type does not match at the start;
    (2) when it matches and the record decodes into an element, appends the
    element and goes on with the following records, any error of which is
    dropped; (3) once an element has been decoded, ends without error, with
    nothing more consumed, when the peeked type does not match or the stream
    has ended.  (1) and (2) hold as well when the slice is nil at the start,
    (4) and (5): the first element then makes it a slice of one element. *)
Theorem decode_repeated (methods : Ty -> option method) (fuel : nat) (fl : flag)
    (e : Ty) (l : list Value) (valType : Z) :
  e <> TUint8 -> CanSet fl = true -> methods (TSlice e) = None ->
  (forall buf, Peek buf <> valType ->
     decode methods (S fuel) buf fl (VSlice e l) valType
     = Done (Some ErrUnexpectedType, VSlice e l, buf))
  /\ (forall buf t v buf' elem,
        Peek buf = valType ->
        readTLV buf = (t, v, None, buf') ->
        decodeValue methods fuel flagNew v (zero e) = Done (None, elem) ->
        decode methods (S fuel) buf fl (VSlice e l) valType
        = suppress (decode methods (S fuel) buf' fl (VSlice e (l ++ [elem])) valType))
  /\ (forall buf, Peek buf <> valType \/ buf = [] ->
        suppress (decode methods (S fuel) buf fl (VSlice e l) valType)
        = Done (None, VSlice e l, buf))
  /\ (forall buf, Peek buf <> valType ->
        decode methods (S fuel) buf fl (VNilSlice e) valType
        = Done (Some ErrUnexpectedType, VNilSlice e, buf))
  /\ (forall buf t v buf' elem,
        Peek buf = valType ->
        readTLV buf = (t, v, None, buf') ->
        decodeValue methods fuel flagNew v (zero e) = Done (None, elem) ->
        decode methods (S fuel) buf fl (VNilSlice e) valType
        = suppress (decode methods (S fuel) buf' fl (VSlice e [elem]) valType)).
Proof.
  intros He Hset Hm.
  assert (Hmis : forall buf value, Peek buf <> valType ->
            decode methods (S fuel) buf fl value valType
            = Done (Some ErrUnexpectedType, value, buf)).
  { intros buf value Hp. unfold decode. rewrite decodeF_unfold.
    destruct (Z.eqb_spec (Peek buf) valType); [contradiction | reflexivity]. }
  split; [intros buf; apply Hmis |]. split; [| split; [| split]].
  - intros buf t v buf' elem Hp Hr Hd. unfold decode.
    rewrite decodeF_unfold. rewrite Hp, Z.eqb_refl. cbn [negb]. rewrite Hr.
    rewrite decodeValue_slice by assumption. rewrite Hd.
    destruct e; try reflexivity. contradiction.
  - intros buf [Hp | ->].
    + rewrite Hmis by exact Hp. reflexivity.
    + destruct (Z.eq_dec (Peek []) valType) as [Heq | Hne].
      * unfold decode. rewrite decodeF_unfold. rewrite Heq, Z.eqb_refl.
        reflexivity.
      * rewrite Hmis by exact Hne. reflexivity.
  - intros buf; apply Hmis.
  - intros buf t v buf' elem Hp Hr Hd. unfold decode.
    rewrite decodeF_unfold. rewrite Hp, Z.eqb_refl. cbn [negb]. rewrite Hr.
    rewrite decodeValue_nil_slice by assumption. rewrite Hd.
    destruct e; try reflexivity. contradiction.
Qed.

Lemma decode_repeated_witness :
  decode noMethods 2 [x07; x01; x05; x08; x00] flagNew (VSlice TUint64 []) 7
  = suppress (decode noMethods 2 [x08; x00] flagNew (VSlice TUint64 [VUint64 5]) 7).
Proof.
  refine (proj1 (proj2 (decode_repeated noMethods 1 flagNew TUint64 [] 7 _ _ _))
            [x07; x01; x05; x08; x00] 7 [x05] [x08; x00] (VUint64 5) _ _ _).
  - discriminate.
  - reflexivity.
  - reflexivity.
  - reflexivity.
  - reflexivity.
  - reflexivity.
Defined.

(** ** Optional and implicit fields (C6, C7) *)

(** C6: when the fields before it have been decoded and the next type number
    on the wire is not the one of a non-implicit field, an optional field is
    left as it was, nothing is consumed for it, and the outcome of the
    composite is that of the fields after it, decoded from the same
    position; a required field aborts the composite with the type-mismatch
    error, the later fields untouched. *)
Theorem decodeStruct_absent_field (methods : Ty -> option method) (fuel : nat)
    (buf buf1 : Reader) (fl : flag) (pre pre' post : list (StructField * Value))
    (sf : StructField) (fv : Value) (tag : structTag) :
  decodeStruct methods fuel buf fl pre = Done (None, pre', buf1) ->
  parseTag sf = inl tag -> Implicit tag = false -> Peek buf1 <> Type_ tag ->
  decodeStruct methods fuel buf fl (pre ++ (sf, fv) :: post)
  = if Optional tag then
      match decodeStruct methods fuel buf1 fl post with
      | Done (err, post', buf2) => Done (err, pre' ++ (sf, fv) :: post', buf2)
      | Panic => Panic
      | Fuel => Fuel
      end
    else Done (Some ErrUnexpectedType, pre' ++ (sf, fv) :: post, buf1).
Proof.
  intros Hpre Htag Himp Hpeek. unfold decodeStruct in *.
  rewrite decodeStructF_app, Hpre.
  rewrite (decodeStructF_absent _ _ _ _ _ _ _ Htag Himp Hpeek).
  destruct (Optional tag); [| reflexivity].
  destruct (decodeStructF (decodeValue methods fuel) buf1 fl post)
    as [[[err post'] buf2] | |]; reflexivity.
Qed.

Lemma decodeStruct_absent_field_witness :
  decodeStruct noMethods 1 [x03; x01; x02; x07; x01; x09] flagNew
    ([(required "A" 3, VUint64 0)]
       ++ (optional "B" 5, VUint64 0) :: [(required "C" 7, VUint64 0)])
  = Done (None,
          [(required "A" 3, VUint64 2)]
            ++ (optional "B" 5, VUint64 0) :: [(required "C" 7, VUint64 9)],
          []).
Proof.
  exact (decodeStruct_absent_field noMethods 1 [x03; x01; x02; x07; x01; x09]
           [x07; x01; x09] flagNew [(required "A" 3, VUint64 0)]
           [(required "A" 3, VUint64 2)] [(required "C" 7, VUint64 0)]
           (optional "B" 5) (VUint64 0) (mkTag 5 true false)
           eq_refl eq_refl eq_refl ltac:(vm_compute; discriminate)).
Defined.

(** Putting a field back at the index it had. *)
Lemma decodeStruct_implicit_insert (pre' post' pre : list (StructField * Value))
    (x : StructField * Value) :
  length pre' = length pre ->
  firstn (length pre) (pre' ++ post') ++ x :: skipn (length pre) (pre' ++ post')
  = pre' ++ x :: post'.
Proof.
  intros Hlen. rewrite <- Hlen.
  rewrite firstn_app, skipn_app, Nat.sub_diag, firstn_all, skipn_all.
  cbn [firstn skipn app]. rewrite app_nil_r. reflexivity.
Qed.

(** C7: a field whose descriptor is marked implicit is skipped: decoding the
    composite gives the error and the reader that decoding the composite
    without that field gives, the other fields are decoded as they are
    without it, in their order, and the field itself comes back unchanged at
    its place. *)
Theorem decodeStruct_implicit_field (methods : Ty -> option method) (fuel : nat)
    (buf : Reader) (fl : flag) (pre post : list (StructField * Value))
    (sf : StructField) (fv : Value) (tag : structTag) :
  parseTag sf = inl tag -> Implicit tag = true ->
  decodeStruct methods fuel buf fl (pre ++ (sf, fv) :: post)
  = match decodeStruct methods fuel buf fl (pre ++ post) with
    | Done (err, fields', buf') =>
        Done (err,
              firstn (length pre) fields' ++ (sf, fv) :: skipn (length pre) fields',
              buf')
    | Panic => Panic
    | Fuel => Fuel
    end.
Proof.
  intros Htag Himp. unfold decodeStruct.
  rewrite !decodeStructF_app.
  destruct (decodeStructF (decodeValue methods fuel) buf fl pre)
    as [[[[e |] pre'] buf1] | |] eqn:Hpre; try reflexivity.
  - apply decodeStructF_length in Hpre.
    rewrite decodeStruct_implicit_insert by exact Hpre. reflexivity.
  - apply decodeStructF_length in Hpre.
    rewrite (decodeStructF_implicit _ _ _ _ _ _ _ Htag Himp).
    destruct (decodeStructF (decodeValue methods fuel) buf1 fl post)
      as [[[err post'] buf2] | |]; try reflexivity.
    rewrite decodeStruct_implicit_insert by exact Hpre. reflexivity.
Qed.

Lemma decodeStruct_implicit_field_witness :
  decodeStruct noMethods 1 [x03; x01; x02; x07; x01; x09] flagNew
    ([(required "A" 3, VUint64 0)]
       ++ (mkField "hidden" false (inl (mkTag 7 false true)), VUint8 x2a)
       :: [(required "C" 7, VUint64 0)])
  = Done (None,
          [(required "A" 3, VUint64 2);
           (mkField "hidden" false (inl (mkTag 7 false true)), VUint8 x2a);
           (required "C" 7, VUint64 9)],
          []).
Proof.
  exact (decodeStruct_implicit_field noMethods 1 [x03; x01; x02; x07; x01; x09]
           flagNew [(required "A" 3, VUint64 0)] [(required "C" 7, VUint64 0)]
           (mkField "hidden" false (inl (mkTag 7 false true))) (VUint8 x2a)
           (mkTag 7 false true) eq_refl eq_refl).
Defined.

(** ** Nested composites (C10) *)

Lemma decodeValue_struct (methods : Ty -> option method) (fuel : nat) (fl : flag)
    (v : bytes) (name : string) (fields : list (StructField * Value)) :
  flagRO fl = false ->
  asBinaryUnmarshaler methods (VStruct name fields) = None ->
  decodeValue methods (S fuel) fl v (VStruct name fields)
  = match decodeStruct methods fuel (NewReader v) fl fields with
    | Done (err, fields', _) => Done (err, VStruct name fields')
    | Panic => Panic
    | Fuel => Fuel
    end.
Proof.
  intros Hro Hm. cbn [decodeValue]. unfold decodeValueF. rewrite Hro, Hm.
  reflexivity.
Qed.

(** C10: a record of the expected type whose declared length [l] is within
    the limit and available is decoded into a composite from its [l] payload
    bytes alone; the outer reader is left exactly [l] bytes behind the length
    field, and whatever the fields leave unread of the payload ([leftover])
    is dropped without an error. *)
Theorem decode_nested_composite (methods : Ty -> option method) (fuel : nat)
    (buf buf1 buf2 leftover : Reader) (valType l : Z) (fl : flag)
    (name : string) (fields fields' : list (StructField * Value)) :
  readVarNum buf = (valType, None, buf1) ->
  readVarNum buf1 = (l, None, buf2) ->
  l <= maxSize ->
  (Z.to_nat l <= length buf2)%nat ->
  flagRO fl = false ->
  asBinaryUnmarshaler methods (VStruct name fields) = None ->
  decodeStruct methods fuel (NewReader (firstn (Z.to_nat l) buf2)) fl fields
  = Done (None, fields', leftover) ->
  decode methods (S fuel) buf fl (VStruct name fields) valType
  = Done (None, VStruct name fields', skipn (Z.to_nat l) buf2).
Proof.
  intros Ht Hl Hsmall Hlen Hro Hm Hfields.
  unfold decode. rewrite decodeF_unfold.
  rewrite (Peek_readVarNum _ _ _ Ht), Z.eqb_refl. cbn [negb].
  rewrite (readTLV_record _ _ _ _ _ Ht Hl Hsmall Hlen).
  rewrite decodeValue_struct by assumption.
  rewrite Hfields. reflexivity.
Qed.

Lemma decode_nested_composite_witness :
  decode noMethods 2 [x01; x05; x03; x01; x02; xaa; xbb; x09] flagNew
    (VStruct "s" [(required "A" 3, VUint64 0)]) 1
  = Done (None, VStruct "s" [(required "A" 3, VUint64 2)], [x09]).
Proof.
  exact (decode_nested_composite noMethods 1
           [x01; x05; x03; x01; x02; xaa; xbb; x09]
           [x05; x03; x01; x02; xaa; xbb; x09]
           [x03; x01; x02; xaa; xbb; x09] [xaa; xbb] 1 5 flagNew "s"
           [(required "A" 3, VUint64 0)] [(required "A" 3, VUint64 2)]
           eq_refl eq_refl ltac:(vm_compute; discriminate)
           ltac:(vm_compute; lia) eq_refl eq_refl eq_refl).
Defined.

(** ** The override hook (C8) *)

(** When [UnmarshalBinary] is in the method set of the value's type, it is
    called before any dispatch on the kind of the value. *)
Lemma decodeValue_hook (methods : Ty -> option method) (fuel : nat) (fl : flag)
    (v : bytes) (value : Value)
    (UnmarshalBinary : bytes -> result (option error * Value)) :
  flagRO fl = false ->
  asBinaryUnmarshaler methods value = Some UnmarshalBinary ->
  decodeValue methods (S fuel) fl v value = UnmarshalBinary v.
Proof.
  intros Hro Hm. cbn [decodeValue]. unfold decodeValueF. rewrite Hro, Hm.
  reflexivity.
Qed.

(** Through a non-nil [*special] the method of the test suite is called. *)
Lemma decodeValue_special_pointer (tagF : structTag + error) (fuel : nat) :
  decodeValue testMethods (S fuel) flagNew [x01]
    (VPtr (specialTy tagF) (Some (specialValue tagF x00)))
  = Done (None, VPtr (specialTy tagF) (Some (specialValue tagF x01))).
Proof. reflexivity. Qed.

(** C8 fails on the code: for a value of type [special], as the field
    [Special] of the test suite is, [UnmarshalBinary] (declared on
    [*special]) would store the payload byte in [F], and [decodeValue] does
    not call it: whatever the empty tag of [F] parses to, the value is
    dispatched as a composite and [F] keeps its old content. *)
Theorem decodeValue_special_not_called (tagF : structTag + error) (fuel : nat) :
  special_UnmarshalBinary [x01] (specialValue tagF x00)
  = Some (None, specialValue tagF x01)
  /\ asBinaryUnmarshaler testMethods (specialValue tagF x00) = None
  /\ exists err,
       decodeValue testMethods (S fuel) flagNew [x01] (specialValue tagF x00)
       = Done (err, specialValue tagF x00).
Proof.
  split; [reflexivity |]. split; [reflexivity |].
  assert (Hfields : exists err buf',
            decodeStruct testMethods fuel (NewReader [x01]) flagNew
              [(mkField "F" true tagF, VUint8 x00)]
            = Done (err, [(mkField "F" true tagF, VUint8 x00)], buf')).
  { unfold decodeStruct. cbn [decodeStructF parseTag Tag].
    destruct tagF as [tag | e]; [| do 2 eexists; reflexivity].
    destruct (Implicit tag); [do 2 eexists; reflexivity |].
    rewrite decodeF_unfold.
    change (Peek (NewReader [x01])) with 1.
    destruct (1 =? Type_ tag); cbn [negb];
      [change (readTLV (NewReader [x01]))
         with (1, @nil byte, Some EOF, @nil byte) |];
      destruct (Optional tag); do 2 eexists; reflexivity. }
  destruct Hfields as (err & buf' & Hfields). exists err.
  unfold specialValue. rewrite decodeValue_struct by reflexivity.
  rewrite Hfields. reflexivity.
Qed.

(** ** References (C9) *)

Lemma decodeValue_pointer_settable (methods : Ty -> option method) (fuel : nat)
    (fl : flag) (v : bytes) (e : Ty) (p : option Value) :
  CanSet fl = true -> methods (TPtr e) = None -> methods e = None ->
  decodeValue methods (S fuel) fl v (VPtr e p)
  = match decodeValue methods fuel flagNew v (zero e) with
    | Done (Some err, _) => Done (Some err, VPtr e p)
    | Done (None, elem) => Done (None, VPtr e (Some elem))
    | Panic => Panic
    | Fuel => Fuel
    end.
Proof.
  intros Hset Hmp Hme. cbn [decodeValue]. unfold decodeValueF.
  pose proof Hset as Hset'. unfold CanSet in Hset'.
  apply andb_prop in Hset' as [_ Hro]. apply negb_true_iff in Hro.
  rewrite Hro, Hset. unfold asBinaryUnmarshaler. cbn [typeOf].
  rewrite Hmp, Hme. reflexivity.
Qed.

(** C9 fails on the code: a settable pointer whose referent is present, the
    slice [5], is given a new referent that holds the decoded element alone,
    where decoding into the referent appends to it. *)
Theorem decodeValue_pointer_replaces_referent :
  decodeValue noMethods 3 flagNew [x07]
    (VPtr (TSlice TUint64) (Some (VSlice TUint64 [VUint64 5])))
  = Done (None, VPtr (TSlice TUint64) (Some (VSlice TUint64 [VUint64 7])))
  /\ decodeValue noMethods 2 flagNew [x07] (VSlice TUint64 [VUint64 5])
     = Done (None, VSlice TUint64 [VUint64 5; VUint64 7]).
Proof. split; reflexivity. Qed.

(** ** The wire format, written and read back *)

Lemma byte_Z_roundtrip (z : Z) : byte_to_Z (Z_to_byte z) = z mod 256.
Proof.
  unfold byte_to_Z, Z_to_byte.
  pose proof (Z.mod_pos_bound z 256 ltac:(lia)) as Hr.
  destruct (Byte.of_N (Z.to_N (z mod 256))) as [b |] eqn:Hb.
  - apply Byte.to_of_N in Hb. rewrite Hb. lia.
  - apply Byte.of_N_None_iff in Hb. lia.
Qed.

Lemma length_beBytes (k : nat) (v : Z) : length (beBytes k v) = k.
Proof.
  revert v. induction k as [| k IH]; intros v; [reflexivity |].
  cbn [beBytes]. rewrite length_app, IH. simpl. lia.
Qed.

Lemma beZ_snoc (a : bytes) (x : byte) : beZ (a ++ [x]) = beZ a * 256 + byte_to_Z x.
Proof. unfold beZ. rewrite fold_left_app. reflexivity. Qed.

Lemma beZ_beBytes (k : nat) (v : Z) : beZ (beBytes k v) = v mod 256 ^ Z.of_nat k.
Proof.
  revert v. induction k as [| k IH]; intros v.
  - cbn. symmetry. apply Z.mod_1_r.
  - cbn [beBytes]. rewrite beZ_snoc, IH, byte_Z_roundtrip.
    rewrite Nat2Z.inj_succ, Z.pow_succ_r by lia.
    rewrite Z.rem_mul_r by lia. lia.
Qed.

Lemma beZ_beBytes_small (k : nat) (v : Z) :
  0 <= v < 256 ^ Z.of_nat k -> beZ (beBytes k v) = v.
Proof. intros H. rewrite beZ_beBytes. apply Z.mod_small. exact H. Qed.

Lemma readVarNum_marker (m : byte) (k : nat) (v : Z) (rest : Reader) :
  extraBytes m = S k -> 0 <= v < 256 ^ Z.of_nat (S k) ->
  readVarNum (m :: beBytes (S k) v ++ rest) = (v, None, rest).
Proof.
  intros Hm Hv. rewrite readVarNum_cons, Hm.
  change (S k =? 0)%nat with false. cbv iota.
  assert (Hlen : length (beBytes (S k) v) = S k) by apply length_beBytes.
  destruct (Nat.leb_spec (S k) (length (beBytes (S k) v ++ rest))) as [_ | Hlt];
    [| rewrite length_app in Hlt; lia].
  rewrite <- Hlen at 1 3.
  rewrite firstn_app, Nat.sub_diag, firstn_all. cbn [firstn].
  rewrite app_nil_r, skipn_app, Nat.sub_diag, skipn_all. cbn [skipn app].
  rewrite beZ_beBytes_small by exact Hv. reflexivity.
Qed.

Lemma readVarNum_encodeVarNum (v : Z) (rest : Reader) :
  0 <= v < 2 ^ 64 ->
  readVarNum (encodeVarNum v ++ rest) = (v, None, rest).
Proof.
  intros Hv. unfold encodeVarNum.
  destruct (Z.leb_spec v 252).
  - cbn [app]. rewrite readVarNum_cons.
    assert (Hb : byte_to_Z (Z_to_byte v) = v)
      by (rewrite byte_Z_roundtrip; apply Z.mod_small; lia).
    unfold extraBytes. rewrite Hb.
    destruct (Z.eqb_spec v 255); [lia |].
    destruct (Z.eqb_spec v 254); [lia |].
    destruct (Z.eqb_spec v 253); [lia |]. reflexivity.
  - destruct (Z.leb_spec v 65535);
      [| destruct (Z.leb_spec v 4294967295)];
      cbn [app]; apply readVarNum_marker; try reflexivity;
      match goal with |- _ <= _ < ?p => let p' := eval cbv in p in change p with p' end;
      change (2 ^ 64) with 18446744073709551616 in Hv; lia.
Qed.

Lemma Peek_writeTLV (t : Z) (p : bytes) (rest : Reader) :
  0 <= t < 2 ^ 64 -> Peek (writeTLV t p ++ rest) = t.
Proof.
  intros Ht. unfold writeTLV. rewrite <- !app_assoc.
  eapply Peek_readVarNum. apply readVarNum_encodeVarNum. exact Ht.
Qed.

Lemma readTLV_writeTLV (t : Z) (p : bytes) (rest : Reader) :
  0 <= t < 2 ^ 64 -> Z.of_nat (length p) <= maxSize ->
  readTLV (writeTLV t p ++ rest) = (t, p, None, rest).
Proof.
  intros Ht Hp. unfold writeTLV. rewrite <- !app_assoc.
  assert (Hl : 0 <= Z.of_nat (length p) < 2 ^ 64).
  { unfold maxSize in Hp. change (2 ^ 64) with 18446744073709551616. lia. }
  rewrite (readTLV_record _ _ _ _ _
             (readVarNum_encodeVarNum t _ Ht)
             (readVarNum_encodeVarNum _ (p ++ rest) Hl)).
  - rewrite Nat2Z.id, firstn_app, Nat.sub_diag, firstn_all.
    cbn [firstn]. rewrite app_nil_r, skipn_app, Nat.sub_diag, skipn_all.
    reflexivity.
  - exact Hp.
  - rewrite Nat2Z.id, length_app. lia.
Qed.

Lemma decodeUint64_encodeUint64 (n : Z) :
  0 <= n < 2 ^ 64 -> decodeUint64 (encodeUint64 n) = n.
Proof.
  intros Hn. change (2 ^ 64) with 18446744073709551616 in Hn.
  rewrite decodeUint64_beZ. unfold encodeUint64.
  destruct (Z.leb_spec n 255);
    [| destruct (Z.leb_spec n 65535); [| destruct (Z.leb_spec n 4294967295)]];
    rewrite length_beBytes; cbn [existsb Nat.eqb orb];
    apply beZ_beBytes_small;
    match goal with |- _ <= _ < ?p => let p' := eval cbv in p in change p with p' end;
    lia.
Qed.

Lemma length_encodeUint64 (n : Z) : (length (encodeUint64 n) <= 8)%nat.
Proof.
  unfold encodeUint64.
  destruct (n <=? 255); [| destruct (n <=? 65535); [| destruct (n <=? 4294967295)]];
    rewrite length_beBytes; lia.
Qed.

(** ** The round trip (C1) *)

Lemma asBinaryUnmarshaler_noMethods (value : Value) :
  asBinaryUnmarshaler noMethods value = None.
Proof. destruct value; reflexivity. Qed.

Lemma suppress_idempotent (r : result (option error * Value * Reader)) :
  suppress (suppress r) = suppress r.
Proof. destruct r as [[[err value] buf] | |]; reflexivity. Qed.

(** A value whose type number is not next on the wire, or at the end of the
    stream: [decode] fails and leaves the value and the reader as they are. *)
Lemma decodeF_absent
    (decodeValue : flag -> bytes -> Value -> result (option error * Value))
    (buf : Reader) (fl : flag) (value : Value) (valType : Z) :
  Peek buf <> valType \/ buf = [] ->
  exists e, decodeF decodeValue buf fl value valType = Done (Some e, value, buf).
Proof.
  intros H. rewrite decodeF_unfold.
  destruct (Z.eqb_spec (Peek buf) valType) as [Heq | Hne].
  - destruct H as [H | ->]; [contradiction |].
    cbn [negb]. eexists. reflexivity.
  - eexists. reflexivity.
Qed.

Lemma rawBytes_VUint8 (bs : bytes) : rawBytes (map VUint8 bs) = bs.
Proof.
  unfold rawBytes. rewrite map_map. apply map_id.
Qed.

Lemma encodeStruct_fields (fields : list (StructField * Value)) :
  encodeStruct noMarshalers fields = concatAll (map encodeField fields).
Proof. reflexivity. Qed.

Lemma encodeStruct_cons (f : StructField * Value)
    (rest : list (StructField * Value)) (q : bytes) :
  encodeStruct noMarshalers (f :: rest) = inl q ->
  exists b q', encodeField f = inl b
               /\ encodeStruct noMarshalers rest = inl q' /\ q = b ++ q'.
Proof.
  rewrite !encodeStruct_fields. cbn [map concatAll].
  destruct (encodeField f) as [b | e]; [| discriminate].
  destruct (concatAll (map encodeField rest)) as [q' | e]; [| discriminate].
  intros H. inversion H. eauto.
Qed.

Lemma payloadOf_one (e : Ty) (x : Value) :
  e <> TUint8 -> payloadOf (VSlice e [x]) = payloadOf x.
Proof. intros He. destruct e; try reflexivity. contradiction. Qed.

Lemma encode_repeated (e : Ty) (l : list Value) (t : Z) :
  e <> TUint8 ->
  encode noMarshalers (VSlice e l) t
  = concatAll (map (fun x => encode noMarshalers x t) l).
Proof. intros He. destruct e; try reflexivity. contradiction. Qed.

(** What the encoder writes for a [single] value: one record. *)
Lemma single_encode (x : Value) :
  single x ->
  Z.of_nat (length (payloadOf x)) <= maxSize
  /\ forall t, encode noMarshalers x t = inl (writeTLV t (payloadOf x)).
Proof.
  induction 1 as [| n Hn | s Hs | bs Hbs | e x He Hx IH Hty | e x Hx IH He
                  | name fields p Hf Hp Hlen].
  - split; [cbn; unfold maxSize; lia | reflexivity].
  - split; [| reflexivity].
    cbn [payloadOf]. pose proof (length_encodeUint64 n). unfold maxSize. lia.
  - split; [exact Hs | reflexivity].
  - cbn [payloadOf]. rewrite rawBytes_VUint8. split; [exact Hbs |].
    intros t. cbn. rewrite rawBytes_VUint8. reflexivity.
  - rewrite payloadOf_one by exact He. split; [exact (proj1 IH) |].
    intros t. rewrite encode_repeated by exact He. cbn [map concatAll].
    rewrite (proj2 IH). rewrite app_nil_r. reflexivity.
  - split; [exact (proj1 IH) |]. intros t. cbn. apply (proj2 IH).
  - cbn [payloadOf]. rewrite Hp. split; [exact Hlen |].
    intros t. cbn [encode noMarshalers typeOf].
    change (concatAll _) with (encodeStruct noMarshalers fields).
    rewrite Hp. reflexivity.
Qed.

Lemma encode_elems (e : Ty) (l : list Value) (t : Z) :
  elemsOK e l ->
  concatAll (map (fun x => encode noMarshalers x t) l) = inl (recordsOf t l).
Proof.
  induction 1 as [| e x l Hx He Hl IH]; [reflexivity |].
  cbn [map concatAll]. rewrite (proj2 (single_encode x Hx)), IH. reflexivity.
Qed.

Lemma single_present (x : Value) : single x -> absent x = false.
Proof. intros H. destruct H; reflexivity. Qed.

Lemma fieldOK_present (fv : Value) : fieldOK fv -> absent fv = false.
Proof.
  intros H. destruct H as [x Hx | e l He Hl Hne];
    [apply single_present; exact Hx | reflexivity].
Qed.

(** What the encoder writes for a field that holds something: records of
    the field's type number. *)
Lemma fieldOK_encode (fv : Value) (t : Z) :
  fieldOK fv ->
  exists p more, encode noMarshalers fv t = inl (writeTLV t p ++ more).
Proof.
  intros H. destruct H as [x Hx | e l He Hl Hne].
  - exists (payloadOf x), []. rewrite app_nil_r.
    apply (proj2 (single_encode x Hx)).
  - destruct l as [| x l]; [contradiction |].
    exists (payloadOf x), (recordsOf t l).
    rewrite encode_repeated by exact He. apply (encode_elems e). exact Hl.
Qed.

(** For an [absent] value the encoder writes nothing, and the value is the
    zero value of its type. *)
Lemma absent_encode (fv : Value) (t : Z) :
  absent fv = true ->
  encode noMarshalers fv t = inl [] /\ fv = zero (typeOf fv).
Proof.
  destruct fv as [[|] | | | | | | e | |]; try discriminate.
  - intros _. split; reflexivity.
  - destruct e; try discriminate; intros _; split; reflexivity.
Qed.

(** The payload of a composite starts with the type number [nextType]
    gives, and is empty when there is none. *)
Lemma fieldsOK_next (fields : list (StructField * Value)) (q : bytes) :
  fieldsOK fields ->
  encodeStruct noMarshalers fields = inl q ->
  match nextType fields with
  | Some t => Peek q = t
  | None => q = []
  end.
Proof.
  intros Hf. revert q.
  induction Hf as [| sf fv rest tag Htag Himp Hz Hrest IH
                   | sf fv rest tag Htag Himp Hopt Habs Hnext Hrest IH
                   | sf fv rest tag Htag Himp Hex Hrange Hfv Hnext Hrest IH];
    intros q Hq.
  - cbn in Hq. inversion Hq. reflexivity.
  - apply encodeStruct_cons in Hq as (b & q' & Hb & Hq' & ->).
    cbn [encodeField] in Hb. rewrite Htag, Himp in Hb. inversion Hb; subst b.
    cbn [app nextType]. rewrite Htag, Himp. cbn [orb]. apply IH. exact Hq'.
  - apply encodeStruct_cons in Hq as (b & q' & Hb & Hq' & ->).
    cbn [encodeField] in Hb. rewrite Htag, Himp in Hb.
    rewrite (proj1 (absent_encode fv (Type_ tag) Habs)) in Hb.
    inversion Hb; subst b.
    cbn [app nextType]. rewrite Htag, Himp, Habs. cbn [orb]. apply IH. exact Hq'.
  - apply encodeStruct_cons in Hq as (b & q' & Hb & Hq' & ->).
    cbn [encodeField] in Hb. rewrite Htag, Himp in Hb.
    destruct (fieldOK_encode fv (Type_ tag) Hfv) as (p & more & Hp).
    rewrite Hp in Hb. inversion Hb; subst b.
    cbn [nextType]. rewrite Htag, Himp, (fieldOK_present fv Hfv). cbn [orb].
    rewrite <- !app_assoc. apply Peek_writeTLV. exact Hrange.
Qed.

Lemma fieldsOK_lookahead (fields : list (StructField * Value)) (q : bytes)
    (t : Z) :
  fieldsOK fields ->
  encodeStruct noMarshalers fields = inl q ->
  nextType fields <> Some t ->
  Peek q <> t \/ q = [].
Proof.
  intros Hf Hq Hnext. pose proof (fieldsOK_next fields q Hf Hq) as H.
  destruct (nextType fields) as [t' |]; [left | right; exact H].
  intros Heq. apply Hnext. congruence.
Qed.

Lemma depth_pos (x : Value) : (1 <= depth x)%nat.
Proof. destruct x as [| | | | | e l | e | e [y |] | name fields]; cbn; lia. Qed.

Lemma depth_elem (x : Value) (l : list Value) :
  In x l -> (depth x <= fold_right (fun y m => Nat.max (depth y) m) O l)%nat.
Proof.
  induction l as [| y l IH]; intros Hin; [contradiction |].
  cbn [fold_right]. destruct Hin as [-> | Hin]; [lia |].
  specialize (IH Hin). lia.
Qed.

Lemma depth_field (sf : StructField) (fv : Value)
    (fields : list (StructField * Value)) :
  In (sf, fv) fields ->
  (depth fv
   <= fold_right (fun (f : StructField * Value) m =>
                    Nat.max (let (_, x) := f in depth x) m) O fields)%nat.
Proof.
  induction fields as [| [sf' fv'] fields IH]; intros Hin; [contradiction |].
  cbn [fold_right]. destruct Hin as [Heq | Hin]; [inversion Heq; lia |].
  specialize (IH Hin). lia.
Qed.

Lemma zero_typeOf_struct (name : string) (fields : list (StructField * Value)) :
  zero (typeOf (VStruct name fields)) = VStruct name (zeroFields fields).
Proof.
  cbn [typeOf zero]. unfold zeroFields. rewrite map_map. reflexivity.
Qed.

Lemma CanSet_flagField (fl : flag) (sf : StructField) :
  CanSet fl = true -> Exported sf = true -> CanSet (flagField fl sf) = true.
Proof.
  unfold CanSet, flagField. cbn. intros H ->.
  apply andb_prop in H as [-> Hro]. apply negb_true_iff in Hro. rewrite Hro.
  reflexivity.
Qed.

Lemma elemsOK_cons_inv (e : Ty) (x : Value) (l : list Value) :
  elemsOK e (x :: l) -> single x /\ typeOf x = e /\ elemsOK e l.
Proof. intros H. inversion H; subst. auto. Qed.

Section Elements.

Variable fuel : nat.
Variable e : Ty.
Variable fl : flag.
Variable t : Z.
Hypothesis He : e <> TUint8.
Hypothesis Hset : CanSet fl = true.
Hypothesis Ht : 0 <= t < 2 ^ 64.
Hypothesis Hfuel : roundTripsAt fuel.

(** One record of a repeated field is read and its element appended. *)
Lemma decode_elem_step (x : Value) (l0 : list Value) (more : Reader) :
  single x -> typeOf x = e -> (depth x <= fuel)%nat ->
  decode noMethods (S fuel) (writeTLV t (payloadOf x) ++ more) fl (VSlice e l0) t
  = suppress (decode noMethods (S fuel) more fl (VSlice e (l0 ++ [x])) t).
Proof.
  intros Hx Hty Hd. unfold decode. rewrite decodeF_unfold.
  rewrite Peek_writeTLV by exact Ht. rewrite Z.eqb_refl. cbn [negb].
  rewrite readTLV_writeTLV by (try exact Ht; apply (single_encode x Hx)).
  rewrite decodeValue_slice by (try assumption; reflexivity).
  rewrite <- Hty. rewrite (Hfuel x flagNew Hx Hd eq_refl). rewrite Hty.
  destruct e; try reflexivity. contradiction.
Qed.

(** The first record of a repeated field that is still nil. *)
Lemma decode_elem_first (x : Value) (more : Reader) :
  single x -> typeOf x = e -> (depth x <= fuel)%nat ->
  decode noMethods (S fuel) (writeTLV t (payloadOf x) ++ more) fl (VNilSlice e) t
  = suppress (decode noMethods (S fuel) more fl (VSlice e [x]) t).
Proof.
  intros Hx Hty Hd. unfold decode. rewrite decodeF_unfold.
  rewrite Peek_writeTLV by exact Ht. rewrite Z.eqb_refl. cbn [negb].
  rewrite readTLV_writeTLV by (try exact Ht; apply (single_encode x Hx)).
  rewrite decodeValue_nil_slice by (try assumption; reflexivity).
  rewrite <- Hty. rewrite (Hfuel x flagNew Hx Hd eq_refl). rewrite Hty.
  destruct e; try reflexivity. contradiction.
Qed.

(** The records of the elements, followed by something else, are all read. *)
Lemma decode_elems (rest : Reader) (l l0 : list Value) :
  Peek rest <> t \/ rest = [] ->
  elemsOK e l ->
  (forall x, In x l -> (depth x <= fuel)%nat) ->
  suppress (decode noMethods (S fuel) (recordsOf t l ++ rest) fl (VSlice e l0) t)
  = Done (None, VSlice e (l0 ++ l), rest).
Proof.
  intros Hrest. revert l0.
  induction l as [| x l IH]; intros l0 Hl Hd.
  - cbn [recordsOf map concat app].
    destruct (decodeF_absent (decodeValue noMethods (S fuel)) rest fl
                (VSlice e l0) t Hrest) as [err Herr].
    unfold decode. rewrite Herr. cbn [suppress]. rewrite app_nil_r. reflexivity.
  - apply elemsOK_cons_inv in Hl as (Hx & Hty & Hl).
    change (recordsOf t (x :: l))
      with (writeTLV t (payloadOf x) ++ recordsOf t l).
    rewrite <- app_assoc.
    rewrite decode_elem_step by (try assumption; try reflexivity; apply Hd; left; reflexivity).
    rewrite suppress_idempotent.
    rewrite IH by (try assumption; intros y Hy; apply Hd; right; exact Hy).
    rewrite <- app_assoc. reflexivity.
Qed.

End Elements.

(** One record of a [single] value is read back; when the value is a slice,
    [decode] peeks at what follows and must find another type number there,
    or the end. *)
Lemma decode_one_single (fuel : nat) (x : Value) (t : Z) (fl : flag)
    (rest : Reader) :
  roundTripsAt fuel ->
  single x -> 0 <= t < 2 ^ 64 -> CanSet fl = true -> (depth x <= fuel)%nat ->
  (notRepeated x = false -> Peek rest <> t \/ rest = []) ->
  decode noMethods fuel (writeTLV t (payloadOf x) ++ rest) fl (zero (typeOf x)) t
  = Done (None, x, rest).
Proof.
  intros Hfuel Hx Ht Hset Hd Hrest. unfold decode. rewrite decodeF_unfold.
  rewrite Peek_writeTLV by exact Ht. rewrite Z.eqb_refl. cbn [negb].
  rewrite readTLV_writeTLV by (try exact Ht; apply (single_encode x Hx)).
  rewrite (Hfuel x fl Hx Hd Hset).
  destruct (notRepeated x); [reflexivity |].
  destruct (decodeF_absent (decodeValue noMethods fuel) rest fl x t
              (Hrest eq_refl)) as [err Herr].
  rewrite Herr. reflexivity.
Qed.

(** A field that holds something is read back, leaving what follows it. *)
Lemma decode_field (fuel : nat) (t : Z) (fv : Value) (fl : flag)
    (b : bytes) (rest : Reader) :
  (forall k, (k <= fuel)%nat -> roundTripsAt k) ->
  fieldOK fv ->
  0 <= t < 2 ^ 64 ->
  CanSet fl = true ->
  (depth fv <= fuel)%nat ->
  encode noMarshalers fv t = inl b ->
  (notRepeated fv = false -> Peek rest <> t \/ rest = []) ->
  decode noMethods fuel (b ++ rest) fl (zero (typeOf fv)) t = Done (None, fv, rest).
Proof.
  intros Hall Hfv Ht Hset Hd Hb Hrest.
  destruct Hfv as [x Hx | e l He Hl Hne].
  - rewrite (proj2 (single_encode x Hx)) in Hb. inversion Hb; subst b.
    apply decode_one_single; try assumption. apply Hall. apply Nat.le_refl.
  - rewrite encode_repeated in Hb by exact He.
    rewrite (encode_elems e l _ Hl) in Hb. inversion Hb; subst b.
    cbn [typeOf zero].
    destruct l as [| x l]; [contradiction |].
    cbn [depth fold_right] in Hd.
    destruct fuel as [| f]; [lia |].
    apply elemsOK_cons_inv in Hl as (Hx & Hty & Hl).
    change (recordsOf t (x :: l))
      with (writeTLV t (payloadOf x) ++ recordsOf t l).
    rewrite <- app_assoc.
    assert (Hf : roundTripsAt f) by (apply Hall; lia).
    assert (Hlook : Peek rest <> t \/ rest = []).
    { apply Hrest. destruct e; try reflexivity. contradiction. }
    rewrite (decode_elem_first f e fl t He Hset Ht Hf)
      by (try assumption; lia).
    apply (decode_elems f e fl t He Hset Ht Hf); try assumption.
    intros y Hy. apply depth_elem in Hy. lia.
Qed.

(** The fields of a composite are read back from its payload. *)
Lemma decodeStruct_fields (fuel : nat) (fl : flag)
    (fields : list (StructField * Value)) (q : bytes) :
  (forall k, (k <= fuel)%nat -> roundTripsAt k) ->
  CanSet fl = true ->
  fieldsOK fields ->
  encodeStruct noMarshalers fields = inl q ->
  (forall sf fv, In (sf, fv) fields -> (depth fv <= fuel)%nat) ->
  decodeStruct noMethods fuel (NewReader q) fl (zeroFields fields)
  = Done (None, fields, []).
Proof.
  intros Hall Hset Hf. revert q.
  induction Hf as [| sf fv rest tag Htag Himp Hz Hrest IH
                   | sf fv rest tag Htag Himp Hopt Habs Hnext Hrest IH
                   | sf fv rest tag Htag Himp Hex Hrange Hfv Hnext Hrest IH];
    intros q Hq Hd.
  - cbn in Hq. inversion Hq. reflexivity.
  - apply encodeStruct_cons in Hq as (b & q' & Hb & Hq' & ->).
    cbn [encodeField] in Hb. rewrite Htag, Himp in Hb. inversion Hb; subst b.
    cbn [app zeroFields map fst snd]. unfold decodeStruct.
    rewrite (decodeStructF_implicit _ _ _ _ _ _ _ Htag Himp).
    unfold decodeStruct, zeroFields in IH.
    rewrite (IH q' Hq') by (intros sf' fv' Hin; eapply Hd; right; exact Hin).
    rewrite <- Hz. reflexivity.
  - apply encodeStruct_cons in Hq as (b & q' & Hb & Hq' & ->).
    cbn [encodeField] in Hb. rewrite Htag, Himp in Hb.
    destruct (absent_encode fv (Type_ tag) Habs) as [Henc Hz].
    rewrite Henc in Hb. inversion Hb; subst b.
    cbn [app zeroFields map fst snd]. rewrite <- Hz.
    destruct (decodeF_absent (decodeValue noMethods fuel) q' (flagField fl sf)
                fv (Type_ tag) (fieldsOK_lookahead rest q' _ Hrest Hq' Hnext))
      as [err Herr].
    unfold decodeStruct, NewReader. cbn [decodeStructF].
    rewrite Htag, Himp, Herr, Hopt.
    unfold decodeStruct, zeroFields, NewReader in IH.
    rewrite (IH q' Hq') by (intros sf' fv' Hin; eapply Hd; right; exact Hin).
    reflexivity.
  - apply encodeStruct_cons in Hq as (b & q' & Hb & Hq' & ->).
    cbn [encodeField] in Hb. rewrite Htag, Himp in Hb.
    assert (Hdec :
      decode noMethods fuel (b ++ q') (flagField fl sf) (zero (typeOf fv))
        (Type_ tag) = Done (None, fv, q')).
    { apply decode_field; try assumption.
      - apply CanSet_flagField; assumption.
      - apply (Hd sf fv). left. reflexivity.
      - intros Hrep. apply (fieldsOK_lookahead rest q' _ Hrest Hq').
        apply Hnext. exact Hrep. }
    cbn [zeroFields map fst snd]. unfold decodeStruct, NewReader.
    cbn [decodeStructF]. rewrite Htag, Himp.
    unfold decode in Hdec. rewrite Hdec.
    unfold decodeStruct, zeroFields, NewReader in IH.
    rewrite (IH q' Hq') by (intros sf' fv' Hin; eapply Hd; right; exact Hin).
    reflexivity.
Qed.

(** Every [single] value is read back from its payload. *)
Lemma roundTrips_all (fuel : nat) : roundTripsAt fuel.
Proof.
  induction fuel as [fuel IH] using lt_wf_ind.
  intros x fl Hx Hd Hset.
  destruct fuel as [| f]; [pose proof (depth_pos x); lia |].
  pose proof (CanSet_flagRO _ Hset) as Hro.
  destruct Hx as [| n Hn | s Hs | bs Hbs | e x He Hx Hty | e x Hx He
                  | name fields p Hf Hp Hlen].
  - cbn [decodeValue]. unfold decodeValueF.
    rewrite Hro, asBinaryUnmarshaler_noMethods. cbn [typeOf zero].
    rewrite Hset. reflexivity.
  - cbn [payloadOf typeOf zero].
    rewrite decodeValue_scalar_uint64 by (try assumption; reflexivity).
    rewrite decodeUint64_encodeUint64 by exact Hn. reflexivity.
  - cbn [decodeValue]. unfold decodeValueF.
    rewrite Hro, asBinaryUnmarshaler_noMethods. cbn [typeOf zero payloadOf].
    rewrite Hset. reflexivity.
  - cbn [decodeValue]. unfold decodeValueF.
    rewrite Hro, asBinaryUnmarshaler_noMethods. cbn [typeOf zero payloadOf].
    rewrite Hset, rawBytes_VUint8. reflexivity.
  - rewrite payloadOf_one by exact He. cbn [typeOf zero].
    rewrite decodeValue_nil_slice by (try assumption; reflexivity).
    cbn [depth fold_right] in Hd. rewrite <- Hty.
    rewrite (IH f (Nat.lt_succ_diag_r f) x flagNew Hx) by (try reflexivity; lia).
    reflexivity.
  - cbn [payloadOf typeOf zero].
    rewrite decodeValue_pointer_settable by (try assumption; reflexivity).
    cbn [depth] in Hd. rewrite <- He.
    rewrite (IH f (Nat.lt_succ_diag_r f) x flagNew Hx) by (try reflexivity; lia).
    reflexivity.
  - rewrite zero_typeOf_struct.
    rewrite decodeValue_struct
      by (try exact Hro; apply asBinaryUnmarshaler_noMethods).
    cbn [payloadOf]. rewrite Hp.
    rewrite (decodeStruct_fields f fl fields p); try assumption.
    + reflexivity.
    + intros k Hk. apply IH. lia.
    + intros sf fv Hin. cbn [depth] in Hd. apply depth_field in Hin. lia.
Qed.

(** C1, as the code and the encoder of the specification have it: a
    [single] value (no override hook declared) is written under any type
    number below 2^64 as one record, and decoding that record into the zero
    value of the value's type gives the value back and leaves what follows
    the record; when the value is itself a slice, [decode] looks for a
    further element, so what follows must be a record of another type or the
    end of the stream. *)
Theorem round_trip (v : Value) (t : Z) (fuel : nat) (fl : flag) (rest : bytes) :
  single v ->
  0 <= t < 2 ^ 64 ->
  CanSet fl = true ->
  (depth v <= fuel)%nat ->
  (notRepeated v = false -> Peek rest <> t \/ rest = []) ->
  exists bs,
    encode noMarshalers v t = inl bs
    /\ decode noMethods fuel (NewReader (bs ++ rest)) fl (zero (typeOf v)) t
       = Done (None, v, rest).
Proof.
  intros Hv Ht Hset Hd Hrest.
  exists (writeTLV t (payloadOf v)). split; [apply (single_encode v Hv) |].
  unfold NewReader. apply decode_one_single; try assumption.
  apply roundTrips_all.
Qed.

Ltac wire_range := split; [discriminate | reflexivity].

Ltac wire_size := vm_compute; discriminate.

Ltac prove_single :=
  lazymatch goal with
  | |- single (VBool true) => apply single_true
  | |- single (VUint64 _) => apply single_uint64; wire_range
  | |- single (VString _) => apply single_string; wire_size
  | |- single (VSlice TUint8 ?l) =>
      apply (single_bytes (rawBytes l)); wire_size
  | |- single (VSlice _ [_]) =>
      apply single_one; [discriminate | prove_single | reflexivity]
  | |- single (VPtr _ (Some _)) =>
      apply single_pointer; [prove_single | reflexivity]
  | |- single (VStruct _ _) =>
      eapply single_struct; [prove_fields | vm_compute; reflexivity | wire_size]
  end
with prove_elems :=
  lazymatch goal with
  | |- elemsOK _ [] => apply elems_nil
  | |- elemsOK _ (_ :: _) =>
      apply elems_cons; [prove_single | reflexivity | prove_elems]
  end
with prove_fields :=
  lazymatch goal with
  | |- fieldsOK [] => apply fields_nil
  | |- fieldsOK (_ :: _) =>
      first
        [ eapply fields_implicit;
          [reflexivity | reflexivity | reflexivity | prove_fields]
        | eapply fields_absent;
          [reflexivity | reflexivity | reflexivity | reflexivity
          | vm_compute; congruence | prove_fields]
        | eapply fields_wire;
          [reflexivity | reflexivity | reflexivity | wire_range
          | first [ apply field_single; prove_single
                  | apply field_repeated;
                    [discriminate | prove_elems | discriminate] ]
          | vm_compute; congruence | prove_fields] ]
  end.

Lemma sampleValue_single : single sampleValue.
Proof. unfold sampleValue. prove_single. Defined.

Lemma mixedValue_single : single mixedValue.
Proof. unfold mixedValue, sampleValue. prove_single. Defined.

Lemma round_trip_witness :
  exists bs,
    encode noMarshalers mixedValue 1 = inl bs
    /\ decode noMethods 4 (NewReader (bs ++ [x2a])) flagNew
         (zero (typeOf mixedValue)) 1
       = Done (None, mixedValue, [x2a]).
Proof.
  apply (round_trip mixedValue 1 4 flagNew [x2a]).
  - exact mixedValue_single.
  - split; [discriminate | reflexivity].
  - reflexivity.
  - vm_compute. repeat constructor.
  - intros H. discriminate H.
Defined.

(** C1 as stated fails: a composite with a required boolean field that is
    false is encoded as an empty record, and decoding that record into a
    fresh value fails with the type-mismatch error. *)
Lemma round_trip_false_flag :
  encode noMarshalers falseFlagValue 1 = inl [x01; x00]
  /\ decode noMethods 2 (NewReader [x01; x00]) flagNew
       (zero (typeOf falseFlagValue)) 1
     = Done (Some ErrUnexpectedType, falseFlagValue, []).
Proof. split; reflexivity. Qed.

(* ================================================================== *)
(** * Further properties of the decoder *)

(** ** What readVarNum and readTLV return and consume *)

Lemma fold_beZ_range (l : bytes) (acc : Z) :
  0 <= acc ->
  0 <= fold_left (fun a x => a * 256 + byte_to_Z x) l acc
    < (acc + 1) * 256 ^ Z.of_nat (length l).
Proof.
  revert acc. induction l as [| x l IH]; intros acc Hacc.
  - cbn. lia.
  - cbn [fold_left length]. pose proof (byte_to_Z_range x) as Hx.
    specialize (IH (acc * 256 + byte_to_Z x) ltac:(lia)).
    rewrite Nat2Z.inj_succ, Z.pow_succ_r by lia.
    assert (Hp : 0 < 256 ^ Z.of_nat (length l)) by (apply Z.pow_pos_nonneg; lia).
    nia.
Qed.

Lemma beZ_range (l : bytes) : 0 <= beZ l < 256 ^ Z.of_nat (length l).
Proof.
  pose proof (fold_beZ_range l 0 ltac:(lia)) as H. unfold beZ. lia.
Qed.

Lemma extraBytes_cases (b0 : byte) :
  extraBytes b0 = 0%nat /\ byte_to_Z b0 <= 252
  \/ extraBytes b0 = 2%nat \/ extraBytes b0 = 4%nat \/ extraBytes b0 = 8%nat.
Proof.
  unfold extraBytes. pose proof (byte_to_Z_range b0).
  destruct (Z.eqb_spec (byte_to_Z b0) 255); [auto |].
  destruct (Z.eqb_spec (byte_to_Z b0) 254); [auto |].
  destruct (Z.eqb_spec (byte_to_Z b0) 253); [auto |].
  left. split; [reflexivity | lia].
Qed.

(** X1: a number read by [readVarNum] is at most 252 when it is the first
    byte itself and fits the 2, 4 or 8 bytes that follow a marker, so it is
    always below 2^64; exactly the first byte and those bytes are consumed;
    when the read fails the number is 0 and the source is exhausted. *)
Theorem readVarNum_result (buf : Reader) :
  match readVarNum buf with
  | (v, None, buf') =>
      0 <= v < 2 ^ 64
      /\ (extraBytes (hd x00 buf) = 0%nat -> v <= 252)
      /\ v < 256 ^ Z.of_nat (Nat.max 1 (extraBytes (hd x00 buf)))
      /\ length buf = (1 + extraBytes (hd x00 buf) + length buf')%nat
  | (v, Some _, buf') => v = 0 /\ buf' = []
  end.
Proof.
  destruct buf as [| b0 rest]; [cbn; auto |].
  rewrite readVarNum_cons. cbn [hd].
  pose proof (byte_to_Z_range b0) as Hb.
  destruct (Nat.eqb_spec (extraBytes b0) 0) as [H0 | Hn0].
  - rewrite H0. cbn [Nat.max length].
    destruct (extraBytes_cases b0) as [[_ Hle] | Hk]; [| lia].
    change (2 ^ 64) with 18446744073709551616.
    change (256 ^ Z.of_nat 1) with 256. repeat split; lia.
  - destruct (Nat.leb_spec (extraBytes b0) (length rest)) as [Hle | Hgt];
      [| auto].
    pose proof (beZ_range (firstn (extraBytes b0) rest)) as Hr.
    rewrite firstn_length_le in Hr by exact Hle.
    rewrite length_skipn. cbn [length].
    replace (Nat.max 1 (extraBytes b0)) with (extraBytes b0) by lia.
    assert (Hpow : 256 ^ Z.of_nat (extraBytes b0) <= 2 ^ 64).
    { destruct (extraBytes_cases b0) as [[H0 _] | [-> | [-> | ->]]];
        [contradiction | | |]; vm_compute; discriminate. }
    repeat split; lia.
Qed.

Lemma readVarNum_split (buf : Reader) (t : Z) (buf' : Reader) :
  readVarNum buf = (t, None, buf') ->
  exists h, buf = h ++ buf' /\ (1 <= length h <= 9)%nat /\ 0 <= t < 2 ^ 64.
Proof.
  intros H. pose proof (readVarNum_result buf) as Hr. rewrite H in Hr.
  destruct Hr as (Ht & _ & _ & Hlen).
  assert (Hbuf' : buf' = skipn (length buf - length buf') buf).
  { destruct buf as [| b0 rest]; [rewrite readVarNum_nil in H; discriminate |].
    rewrite readVarNum_cons in H.
    destruct (extraBytes b0 =? 0)%nat eqn:H0.
    - inversion H; subst. cbn [length].
      replace (S (length buf') - length buf')%nat with 1%nat by lia. reflexivity.
    - destruct (Nat.leb_spec (extraBytes b0) (length rest)); [| discriminate].
      inversion H; subst. cbn [length]. rewrite length_skipn.
      replace (S (length rest) - (length rest - extraBytes b0))%nat
        with (S (extraBytes b0)) by lia.
      reflexivity. }
  exists (firstn (length buf - length buf') buf).
  split; [rewrite Hbuf' at 2; symmetry; apply firstn_skipn |].
  split; [| exact Ht].
  rewrite firstn_length_le by lia.
  destruct (extraBytes_cases (hd x00 buf)) as [[H0 _] | [H2 | [H4 | H8]]]; lia.
Qed.

(** X2: a record read by [readTLV] is framed: the source is a header of 2 to
    18 bytes, then the payload, then the reader that is returned; the
    payload has at most 8800 bytes and the type number is below 2^64. *)
Theorem readTLV_frame (buf : Reader) (t : Z) (v : bytes) (buf' : Reader) :
  readTLV buf = (t, v, None, buf') ->
  exists hdr,
    buf = hdr ++ v ++ buf'
    /\ (2 <= length hdr <= 18)%nat
    /\ Z.of_nat (length v) <= maxSize
    /\ 0 <= t < 2 ^ 64.
Proof.
  unfold readTLV.
  destruct (readVarNum buf) as [[t1 [e1 |]] buf1] eqn:H1; [discriminate |].
  destruct (readVarNum buf1) as [[l [e2 |]] buf2] eqn:H2; [discriminate |].
  destruct (Z.ltb_spec maxSize l) as [| Hl]; [discriminate |].
  destruct (ReadFull buf2 (Z.to_nat l)) as [[p err] buf3] eqn:H3.
  intros H. inversion H; subst.
  apply ReadFull_ok_inv in H3 as (Hlen & -> & ->).
  apply readVarNum_split in H1 as (h1 & -> & Hh1 & Ht).
  apply readVarNum_split in H2 as (h2 & -> & Hh2 & Hl0).
  exists (h1 ++ h2). split; [| split; [| split]].
  - rewrite <- app_assoc, firstn_skipn. reflexivity.
  - rewrite length_app. lia.
  - rewrite firstn_length_le by exact Hlen. lia.
  - exact Ht.
Qed.

Lemma readTLV_frame_witness :
  exists hdr,
    [x07; x02; xaa; xbb; x09] = hdr ++ [xaa; xbb] ++ [x09]
    /\ (2 <= length hdr <= 18)%nat
    /\ Z.of_nat (length [xaa; xbb]) <= maxSize
    /\ 0 <= 7 < 2 ^ 64.
Proof.
  exact (readTLV_frame [x07; x02; xaa; xbb; x09] 7 [xaa; xbb] [x09] eq_refl).
Defined.

Lemma readVarNum_more_input (buf : Reader) (t : Z) (buf' more : Reader) :
  readVarNum buf = (t, None, buf') ->
  readVarNum (buf ++ more) = (t, None, buf' ++ more).
Proof.
  destruct buf as [| b0 rest]; [rewrite readVarNum_nil; discriminate |].
  cbn [app]. rewrite !readVarNum_cons.
  destruct (extraBytes b0 =? 0)%nat.
  - intros H. inversion H. reflexivity.
  - destruct (Nat.leb_spec (extraBytes b0) (length rest)) as [Hle |];
      [| discriminate].
    intros H. inversion H; subst.
    destruct (Nat.leb_spec (extraBytes b0) (length (rest ++ more))) as [_ | Hgt];
      [| rewrite length_app in Hgt; lia].
    rewrite firstn_app, skipn_app.
    replace (extraBytes b0 - length rest)%nat with 0%nat by lia.
    cbn [firstn skipn]. rewrite app_nil_r. reflexivity.
Qed.

(** X3: what [readTLV] has read does not depend on what comes after it: a
    record read from a source, or a header refused for its length, is read
    the same when more bytes follow the source, and these bytes are left. *)
Theorem readTLV_more_input (buf : Reader) (t : Z) (v : bytes)
    (err : option error) (buf' more : Reader) :
  readTLV buf = (t, v, err, buf') ->
  err = None \/ err = Some ErrPacketTooLarge ->
  readTLV (buf ++ more) = (t, v, err, buf' ++ more).
Proof.
  unfold readTLV.
  destruct (readVarNum buf) as [[t1 [e1 |]] buf1] eqn:H1.
  { intros H [-> | ->]; inversion H; subst.
    destruct buf as [| b0 rest]; [rewrite readVarNum_nil in H1; discriminate |].
    rewrite readVarNum_cons in H1.
    destruct (extraBytes b0 =? 0)%nat; [discriminate |].
    destruct (extraBytes b0 <=? length rest)%nat; [discriminate |].
    destruct rest; discriminate. }
  rewrite (readVarNum_more_input _ _ _ more H1).
  destruct (readVarNum buf1) as [[l [e2 |]] buf2] eqn:H2.
  { intros H [-> | ->]; inversion H; subst.
    destruct buf1 as [| b0 rest]; [rewrite readVarNum_nil in H2; discriminate |].
    rewrite readVarNum_cons in H2.
    destruct (extraBytes b0 =? 0)%nat; [discriminate |].
    destruct (extraBytes b0 <=? length rest)%nat; [discriminate |].
    destruct rest; discriminate. }
  rewrite (readVarNum_more_input _ _ _ more H2).
  destruct (maxSize <? l); [intros H _; inversion H; reflexivity |].
  destruct (ReadFull buf2 (Z.to_nat l)) as [[p err3] buf3] eqn:H3.
  intros H Herr. inversion H; subst.
  destruct Herr as [-> | ->].
  - apply ReadFull_ok_inv in H3 as (Hlen & -> & ->).
    rewrite ReadFull_enough by (rewrite length_app; lia).
    rewrite firstn_app, skipn_app.
    replace (Z.to_nat l - length buf2)%nat with 0%nat by lia.
    cbn [firstn skipn]. rewrite app_nil_r. reflexivity.
  - destruct (Nat.le_gt_cases (Z.to_nat l) (length buf2)) as [Hle | Hgt].
    + rewrite ReadFull_enough in H3 by exact Hle. discriminate.
    + rewrite ReadFull_short in H3 by exact Hgt. destruct buf2; discriminate.
Qed.

Lemma readTLV_more_input_witness :
  readTLV ([x07; x02; xaa; xbb] ++ [x09; x0a])
  = (7, [xaa; xbb], None, [] ++ [x09; x0a]).
Proof.
  exact (readTLV_more_input [x07; x02; xaa; xbb] 7 [xaa; xbb] None []
           [x09; x0a] eq_refl (or_introl eq_refl)).
Defined.

(** X4: when a record declares a length within the limit and the source ends
    before that many bytes, [readTLV] fails with [EOF] if no payload byte is
    left and with [ErrUnexpectedEOF] otherwise, having consumed the source,
    and [decode] of a value of that type returns the same error and leaves
    the value as it was. *)
Theorem decode_truncated (methods : Ty -> option method) (fuel : nat)
    (buf buf1 buf2 : Reader) (t l : Z) (fl : flag) (value : Value) :
  readVarNum buf = (t, None, buf1) ->
  readVarNum buf1 = (l, None, buf2) ->
  l <= maxSize ->
  (length buf2 < Z.to_nat l)%nat ->
  readTLV buf
  = (t, buf2 ++ repeat x00 (Z.to_nat l - length buf2),
     Some (match buf2 with [] => EOF | _ => ErrUnexpectedEOF end), [])
  /\ decode methods fuel buf fl value t
     = Done (Some (match buf2 with [] => EOF | _ => ErrUnexpectedEOF end),
             value, []).
Proof.
  intros Ht Hl Hsmall Hshort.
  assert (Hr : readTLV buf
               = (t, buf2 ++ repeat x00 (Z.to_nat l - length buf2),
                  Some (match buf2 with [] => EOF | _ => ErrUnexpectedEOF end), [])).
  { unfold readTLV. rewrite Ht, Hl.
    destruct (Z.ltb_spec maxSize l); [lia |].
    rewrite ReadFull_short by exact Hshort. reflexivity. }
  split; [exact Hr |].
  unfold decode. rewrite decodeF_unfold.
  rewrite (Peek_readVarNum _ _ _ Ht), Z.eqb_refl. cbn [negb].
  rewrite Hr. reflexivity.
Qed.

Lemma decode_truncated_witness :
  readTLV [x07; x03; xaa] = (7, [xaa; x00; x00], Some ErrUnexpectedEOF, [])
  /\ decode noMethods 0 [x07; x03; xaa] flagNew (VString []) 7
     = Done (Some ErrUnexpectedEOF, VString [], []).
Proof.
  exact (decode_truncated noMethods 0 [x07; x03; xaa] [x03; xaa] [xaa] 7 3
           flagNew (VString []) eq_refl eq_refl
           ltac:(vm_compute; discriminate) ltac:(vm_compute; lia)).
Defined.

(** X5: [decodeUint64] never yields more than the payload can hold: its
    result is below 256 to the number of payload bytes, and below 2^64. *)
Theorem decodeUint64_range (b : bytes) :
  0 <= decodeUint64 b < 2 ^ 64
  /\ decodeUint64 b < 256 ^ Z.of_nat (length b).
Proof.
  rewrite decodeUint64_beZ. pose proof (beZ_range b) as Hr.
  assert (Hpos : 0 < 256 ^ Z.of_nat (length b)) by (apply Z.pow_pos_nonneg; lia).
  destruct (existsb (Nat.eqb (length b)) [1; 2; 4; 8]%nat) eqn:Hlen.
  - assert (Hpow : 256 ^ Z.of_nat (length b) <= 2 ^ 64).
    { cbn [existsb] in Hlen. rewrite !orb_true_iff, !Nat.eqb_eq in Hlen.
      destruct Hlen as [-> | [-> | [-> | [-> | H]]]];
        [| | | | discriminate]; vm_compute; discriminate. }
    lia.
  - change (2 ^ 64) with 18446744073709551616. lia.
Qed.

(** ** decode: where its errors come from, what it keeps *)

(** X6: an error returned by [decode] comes from the first record: either
    the peeked type did not match (nothing consumed, value untouched), or
    reading the first record failed (value untouched), or decoding the first
    record into the value failed; errors met after a decoded element never
    come out. *)
Theorem decode_error_origin (methods : Ty -> option method) (fuel : nat)
    (buf buf' : Reader) (fl : flag) (value value' : Value) (valType : Z)
    (e : error) :
  decode methods fuel buf fl value valType = Done (Some e, value', buf') ->
  (Peek buf <> valType /\ e = ErrUnexpectedType /\ value' = value /\ buf' = buf)
  \/ (Peek buf = valType
      /\ exists t v, readTLV buf = (t, v, Some e, buf') /\ value' = value)
  \/ (Peek buf = valType
      /\ exists t v, readTLV buf = (t, v, None, buf')
                     /\ decodeValue methods fuel fl v value = Done (Some e, value')).
Proof.
  unfold decode. rewrite decodeF_unfold.
  destruct (Z.eqb_spec (Peek buf) valType) as [Heq | Hne]; cbn [negb].
  - destruct (readTLV buf) as [[[t v] [e1 |]] buf1] eqn:Hr.
    + intros H. inversion H; subst. right. left. split; [reflexivity |].
      exists t, v. auto.
    + destruct (decodeValue methods fuel fl v value) as [[[e1 |] value1] | |] eqn:Hd;
        try discriminate.
      * intros H. inversion H; subst. right. right. split; [reflexivity |].
        exists t, v. auto.
      * destruct (notRepeated value1); [discriminate |].
        destruct (decodeF (decodeValue methods fuel) buf1 fl value1 valType)
          as [[[e2 value2] buf2] | |]; discriminate.
  - intros H. inversion H; subst. left. auto.
Qed.

Lemma decode_error_origin_witness :
  (Peek [x08; x00] <> 7 /\ ErrUnexpectedType = ErrUnexpectedType
   /\ VBool false = VBool false /\ [x08; x00] = [x08; x00])
  \/ (Peek [x08; x00] = 7
      /\ exists t v, readTLV [x08; x00] = (t, v, Some ErrUnexpectedType, [x08; x00])
                     /\ VBool false = VBool false)
  \/ (Peek [x08; x00] = 7
      /\ exists t v, readTLV [x08; x00] = (t, v, None, [x08; x00])
                     /\ decodeValue noMethods 1 flagNew v (VBool false)
                        = Done (Some ErrUnexpectedType, VBool false)).
Proof.
  exact (decode_error_origin noMethods 1 [x08; x00] [x08; x00] flagNew
           (VBool false) (VBool false) 7 ErrUnexpectedType eq_refl).
Defined.

(** X10: on an exhausted stream [decode] fails, with the type-mismatch error
    or with [EOF], and leaves the value as it was. *)
Theorem decode_empty_stream (methods : Ty -> option method) (fuel : nat)
    (fl : flag) (value : Value) (valType : Z) :
  exists e,
    decode methods fuel [] fl value valType = Done (Some e, value, [])
    /\ (e = ErrUnexpectedType \/ e = EOF).
Proof.
  unfold decode. rewrite decodeF_unfold.
  destruct (Peek [] =? valType); cbn [negb].
  - exists EOF. split; [reflexivity | right; reflexivity].
  - exists ErrUnexpectedType. split; [reflexivity | left; reflexivity].
Qed.

(** *** The type of the value is kept *)

Lemma asBinaryUnmarshaler_typeOf (methods : Ty -> option method) (value : Value)
    (call : bytes -> result (option error * Value)) (v : bytes)
    (err : option error) (value' : Value) :
  asBinaryUnmarshaler methods value = Some call ->
  call v = Done (err, value') ->
  typeOf value' = typeOf value.
Proof.
  unfold asBinaryUnmarshaler.
  assert (Hkeep : forall (o : option (option error)),
            liftPanic (option_map (fun e => (e, value)) o) = Done (err, value') ->
            typeOf value' = typeOf value).
  { intros [o |]; cbn; intros H; inversion H; reflexivity. }
  assert (Hptr : forall m, match value with
            | VPtr e p =>
                match methods e, p with
                | Some (ValueMethod f), Some x =>
                    Some (fun v => liftPanic (option_map (fun e' => (e', value)) (f v x)))
                | Some (ValueMethod f), None => Some (fun _ => Panic)
                | Some (PointerMethod f _), Some x =>
                    Some (fun v =>
                            liftPanic
                              (option_map (fun r => (fst r, VPtr e (Some (snd r)))) (f v x)))
                | Some (PointerMethod _ onNil), None =>
                    Some (fun v => liftPanic (option_map (fun e' => (e', value)) (onNil v)))
                | None, _ => None
                end
            | _ => None
            end = Some m -> m v = Done (err, value') -> typeOf value' = typeOf value).
  { intros m. destruct value as [| | | | | e l | e | e p | name fields]; try discriminate.
    destruct (methods e) as [[f | f onNil] |]; [| | discriminate];
      destruct p as [x |]; intros Hm; inversion Hm; subst; try discriminate;
      try apply Hkeep.
    destruct (f v x) as [[e1 x1] |]; cbn; intros H; inversion H; reflexivity. }
  destruct (methods (typeOf value)) as [[f | f onNil] |].
  - intros Hc. inversion Hc; subst. apply Hkeep.
  - apply Hptr.
  - apply Hptr.
Qed.

Lemma notRepeated_typeOf (a b : Value) :
  typeOf a = typeOf b -> notRepeated a = notRepeated b.
Proof.
  destruct a, b; cbn; intros H; try discriminate; try reflexivity;
    inversion H; reflexivity.
Qed.

Section TypeKept.

Variable methods : Ty -> option method.
Variable dv : flag -> bytes -> Value -> result (option error * Value).
Hypothesis dv_typeOf :
  forall fl v value err value',
    dv fl v value = Done (err, value') -> typeOf value' = typeOf value.

Lemma decodeLoop_typeOf (n : nat) (buf : Reader) (fl : flag) (value : Value)
    (valType : Z) (once : bool) (err : option error) (value' : Value)
    (buf' : Reader) :
  decodeLoop dv n buf fl value valType once = Done (err, value', buf') ->
  typeOf value' = typeOf value.
Proof.
  revert buf value once.
  induction n as [| n IH]; intros buf value once; [discriminate |].
  cbn [decodeLoop].
  destruct (negb (Peek buf =? valType)); [intros H; inversion H; reflexivity |].
  destruct (readTLV buf) as [[[t v] [e |]] buf1];
    [intros H; inversion H; reflexivity |].
  destruct (dv fl v value) as [[[e |] value1] | |] eqn:Hd; try discriminate.
  - intros H. inversion H; subst. eapply dv_typeOf. exact Hd.
  - apply dv_typeOf in Hd.
    destruct (notRepeated value1).
    + intros H. inversion H; subst. exact Hd.
    + intros H. apply IH in H. congruence.
Qed.

Lemma decodeStructF_typeOf (buf : Reader) (fl : flag)
    (fields fields' : list (StructField * Value)) (err : option error)
    (buf' : Reader) :
  decodeStructF dv buf fl fields = Done (err, fields', buf') ->
  map (fun fv => (fst fv, typeOf (snd fv))) fields'
  = map (fun fv => (fst fv, typeOf (snd fv))) fields.
Proof.
  revert buf fields' err buf'.
  induction fields as [| [sf fv] rest IH]; intros buf fields' err buf' H.
  - cbn in H. inversion H. reflexivity.
  - cbn [decodeStructF] in H.
    destruct (parseTag sf) as [tag | e]; [| inversion H; reflexivity].
    destruct (Implicit tag).
    + destruct (decodeStructF dv buf fl rest) as [[[err1 rest1] buf1] | |] eqn:Hrest;
        try discriminate.
      inversion H; subst. cbn [map fst snd]. f_equal. eapply IH. exact Hrest.
    + destruct (decodeF dv buf (flagField fl sf) fv (Type_ tag))
        as [[[err1 fv1] buf1] | |] eqn:Hfield; try discriminate.
      apply decodeLoop_typeOf in Hfield.
      assert (Hgo :
        match decodeStructF dv buf1 fl rest with
        | Done (err', rest', buf'') => Done (err', (sf, fv1) :: rest', buf'')
        | Panic => Panic
        | Fuel => Fuel
        end = Done (err, fields', buf') ->
        map (fun fv0 => (fst fv0, typeOf (snd fv0))) fields'
        = map (fun fv0 => (fst fv0, typeOf (snd fv0))) ((sf, fv) :: rest)).
      { destruct (decodeStructF dv buf1 fl rest) as [[[err2 rest2] buf2] | |] eqn:Hrest;
          try discriminate.
        intros H'. inversion H'; subst. cbn [map fst snd].
        rewrite Hfield. f_equal. eapply IH. exact Hrest. }
      destruct err1 as [e |]; [destruct (Optional tag) |]; auto.
      inversion H; subst. cbn [map fst snd]. rewrite Hfield. reflexivity.
Qed.

Lemma decodeValueF_typeOf (fl : flag) (v : bytes) (value : Value)
    (err : option error) (value' : Value) :
  decodeValueF methods dv fl v value = Done (err, value') ->
  typeOf value' = typeOf value.
Proof.
  unfold decodeValueF.
  destruct (flagRO fl); [discriminate |].
  destruct (asBinaryUnmarshaler methods value) as [call |] eqn:Hm.
  { apply (asBinaryUnmarshaler_typeOf methods value call v err value' Hm). }
  destruct value as [b | n | b | s | | e l | e | e p | name fields].
  - destruct (CanSet fl); intros H; inversion H; reflexivity.
  - destruct (CanSet fl); intros H; inversion H; reflexivity.
  - intros H; inversion H; reflexivity.
  - destruct (CanSet fl); intros H; inversion H; reflexivity.
  - intros H; inversion H; reflexivity.
  - assert (Hgen :
      match dv flagNew v (zero e) with
      | Done (Some e0, _) => Done (Some e0, VSlice e l)
      | Done (None, elem) =>
          if CanSet fl then Done (None, VSlice e (l ++ [elem])) else Panic
      | Panic => Panic
      | Fuel => Fuel
      end = Done (err, value') -> typeOf value' = typeOf (VSlice e l)).
    { destruct (dv flagNew v (zero e)) as [[[e0 |] elem] | |]; try discriminate.
      - intros H; inversion H; reflexivity.
      - destruct (CanSet fl); intros H; inversion H; reflexivity. }
    destruct e; try exact Hgen.
    destruct (CanSet fl); intros H; inversion H; reflexivity.
  - assert (Hgen :
      match dv flagNew v (zero e) with
      | Done (Some e0, _) => Done (Some e0, VNilSlice e)
      | Done (None, elem) =>
          if CanSet fl then Done (None, VSlice e [elem]) else Panic
      | Panic => Panic
      | Fuel => Fuel
      end = Done (err, value') -> typeOf value' = typeOf (VNilSlice e)).
    { destruct (dv flagNew v (zero e)) as [[[e0 |] elem] | |]; try discriminate.
      - intros H; inversion H; reflexivity.
      - destruct (CanSet fl); intros H; inversion H; reflexivity. }
    destruct e; try exact Hgen.
    destruct (CanSet fl); intros H; inversion H; reflexivity.
  - destruct (CanSet fl).
    + destruct (dv flagNew v (zero e)) as [[[e0 |] elem] | |]; try discriminate;
        intros H; inversion H; reflexivity.
    + destruct p as [x |]; [| discriminate].
      destruct (dv (flagElem fl) v x) as [[err1 x1] | |]; try discriminate.
      intros H; inversion H; reflexivity.
  - destruct (decodeStructF dv (NewReader v) fl fields)
      as [[[err1 fields1] buf1] | |] eqn:Hs; try discriminate.
    intros H; inversion H; subst. cbn [typeOf]. f_equal.
    eapply decodeStructF_typeOf. exact Hs.
Qed.

End TypeKept.

Lemma decodeValue_typeOf (methods : Ty -> option method) (fuel : nat) (fl : flag)
    (v : bytes) (value : Value) (err : option error) (value' : Value) :
  decodeValue methods fuel fl v value = Done (err, value') ->
  typeOf value' = typeOf value.
Proof.
  revert fl v value err value'.
  induction fuel as [| fuel IH]; intros fl v value err value'; [discriminate |].
  cbn [decodeValue]. apply decodeValueF_typeOf. exact IH.
Qed.

(** X7: a value that is not a repeated field takes exactly one record: when
    the record of the expected type is read and decoded into the value,
    [decode] returns at once with the reader just behind that record,
    whatever follows, also further records of the same type. *)
Theorem decode_one_record (methods : Ty -> option method) (fuel : nat)
    (buf buf' : Reader) (fl : flag) (value value' : Value) (valType t : Z)
    (v : bytes) :
  notRepeated value = true ->
  Peek buf = valType ->
  readTLV buf = (t, v, None, buf') ->
  decodeValue methods fuel fl v value = Done (None, value') ->
  decode methods fuel buf fl value valType = Done (None, value', buf').
Proof.
  intros Hnr Hp Hr Hd. unfold decode. rewrite decodeF_unfold.
  rewrite Hp, Z.eqb_refl. cbn [negb]. rewrite Hr, Hd.
  rewrite (notRepeated_typeOf value' value (decodeValue_typeOf _ _ _ _ _ _ _ Hd)).
  rewrite Hnr. reflexivity.
Qed.

Lemma decode_one_record_witness :
  decode noMethods 1 [x07; x01; x05; x07; x01; x06] flagNew (VUint64 0) 7
  = Done (None, VUint64 5, [x07; x01; x06]).
Proof.
  exact (decode_one_record noMethods 1 [x07; x01; x05; x07; x01; x06]
           [x07; x01; x06] flagNew (VUint64 0) (VUint64 5) 7 7 [x05]
           eq_refl eq_refl eq_refl eq_refl).
Defined.

(** ** decode terminates *)

Lemma typeOf_zero (t : Ty) : typeOf (zero t) = t.
Proof.
  induction t as [| | | | | e IH | e IH | name fields IH] using Ty_nested_ind;
    try reflexivity.
  cbn [zero typeOf]. f_equal. rewrite map_map. cbn [fst snd].
  induction IH as [| [sf ft] fields Hf Hfields IHfields]; [reflexivity |].
  cbn [map fst snd]. cbn [snd] in Hf. rewrite Hf, IHfields. reflexivity.
Qed.

Lemma fuelFor_zero (t : Ty) : (fuelFor (zero t) <= tyDepth t)%nat.
Proof.
  induction t as [| | | | | e IH | e IH | name fields IH] using Ty_nested_ind;
    try (cbn; lia).
  cbn [zero fuelFor tyDepth]. apply le_n_S.
  induction IH as [| [sf ft] fields Hf Hfields IHfields]; [cbn; lia |].
  cbn [map fold_right fst snd]. cbn [snd] in Hf. lia.
Qed.

Lemma fuelFor_pos (value : Value) : (1 <= fuelFor value)%nat.
Proof. destruct value as [| | | | | e l | e | e [x |] | name fields]; cbn; lia. Qed.

Lemma fuelFor_repeated (a b : Value) :
  notRepeated a = false -> typeOf a = typeOf b -> fuelFor a = fuelFor b.
Proof.
  destruct a; try discriminate; destruct b; try discriminate;
    intros _ H; inversion H; reflexivity.
Qed.

Lemma fuelFor_field (sf : StructField) (fv : Value)
    (fields : list (StructField * Value)) :
  In (sf, fv) fields ->
  (fuelFor fv
   <= fold_right (fun (f : StructField * Value) m =>
                    Nat.max (let (_, x) := f in fuelFor x) m) O fields)%nat.
Proof.
  induction fields as [| [sf' fv'] fields IH]; intros Hin; [contradiction |].
  cbn [fold_right]. destruct Hin as [Heq | Hin]; [inversion Heq; lia |].
  specialize (IH Hin). lia.
Qed.

Lemma asBinaryUnmarshaler_returns (methods : Ty -> option method) (value : Value)
    (call : bytes -> result (option error * Value)) (v : bytes) :
  asBinaryUnmarshaler methods value = Some call -> call v <> Fuel.
Proof.
  unfold asBinaryUnmarshaler.
  assert (Hlift : forall A (o : option A), liftPanic o <> Fuel)
    by (intros A [a |]; discriminate).
  assert (Hptr : forall m, match value with
            | VPtr e p =>
                match methods e, p with
                | Some (ValueMethod f), Some x =>
                    Some (fun v => liftPanic (option_map (fun e' => (e', value)) (f v x)))
                | Some (ValueMethod f), None => Some (fun _ => Panic)
                | Some (PointerMethod f _), Some x =>
                    Some (fun v =>
                            liftPanic
                              (option_map (fun r => (fst r, VPtr e (Some (snd r)))) (f v x)))
                | Some (PointerMethod _ onNil), None =>
                    Some (fun v => liftPanic (option_map (fun e' => (e', value)) (onNil v)))
                | None, _ => None
                end
            | _ => None
            end = Some m -> m v <> Fuel).
  { intros m. destruct value as [| | | | | e l | e | e p | name fields]; try discriminate.
    destruct (methods e) as [[f | f onNil] |]; [| | discriminate];
      destruct p as [x |]; intros Hm; inversion Hm; subst;
      first [apply Hlift | discriminate]. }
  destruct (methods (typeOf value)) as [[f | f onNil] |].
  - intros Hc. inversion Hc; subst. apply Hlift.
  - apply Hptr.
  - apply Hptr.
Qed.

Section Returns.

Variable methods : Ty -> option method.
Variable dv : flag -> bytes -> Value -> result (option error * Value).
Variable f : nat.
Hypothesis dv_typeOf :
  forall fl v value err value',
    dv fl v value = Done (err, value') -> typeOf value' = typeOf value.
Hypothesis dv_returns :
  forall fl v value, (fuelFor value <= f)%nat -> dv fl v value <> Fuel.

Lemma decodeLoop_returns (n : nat) (buf : Reader) (fl : flag) (value : Value)
    (valType : Z) (once : bool) :
  (length buf < n)%nat -> (fuelFor value <= f)%nat ->
  decodeLoop dv n buf fl value valType once <> Fuel.
Proof.
  revert buf value once.
  induction n as [| n IH]; intros buf value once Hn Hf; [lia |].
  cbn [decodeLoop].
  destruct (negb (Peek buf =? valType)); [discriminate |].
  destruct (readTLV buf) as [[[t v] [e |]] buf1] eqn:Hr; [discriminate |].
  apply readTLV_shrinks in Hr.
  destruct (dv fl v value) as [[[e |] value1] | |] eqn:Hd; try discriminate.
  - destruct (notRepeated value1) eqn:Hnr; [discriminate |].
    apply IH; [lia |].
    rewrite (fuelFor_repeated value1 value Hnr (dv_typeOf _ _ _ _ _ Hd)).
    exact Hf.
  - exfalso. exact (dv_returns _ _ _ Hf Hd).
Qed.

Lemma decodeStructF_returns (buf : Reader) (fl : flag)
    (fields : list (StructField * Value)) :
  (forall sf fv, In (sf, fv) fields -> (fuelFor fv <= f)%nat) ->
  decodeStructF dv buf fl fields <> Fuel.
Proof.
  revert buf. induction fields as [| [sf fv] rest IH]; intros buf Hf;
    [discriminate |].
  cbn [decodeStructF].
  assert (Hrest : forall b, decodeStructF dv b fl rest <> Fuel).
  { intros b. apply IH. intros sf' fv' Hin. apply (Hf sf' fv'). right. exact Hin. }
  destruct (parseTag sf) as [tag | e]; [| discriminate].
  destruct (Implicit tag).
  - specialize (Hrest buf).
    destruct (decodeStructF dv buf fl rest) as [[[err1 rest1] buf1] | |];
      [discriminate | discriminate | contradiction].
  - pose proof (decodeLoop_returns (S (length buf)) buf (flagField fl sf) fv
                  (Type_ tag) false (Nat.lt_succ_diag_r _)
                  (Hf sf fv (or_introl eq_refl))) as Hfield.
    unfold decodeF.
    destruct (decodeLoop dv (S (length buf)) buf (flagField fl sf) fv
                (Type_ tag) false) as [[[err1 fv1] buf1] | |];
      [| discriminate | contradiction].
    specialize (Hrest buf1).
    destruct (decodeStructF dv buf1 fl rest) as [[[err2 rest2] buf2] | |];
      [| | contradiction];
      destruct err1 as [e |]; try destruct (Optional tag); discriminate.
Qed.

Lemma decodeValueF_returns (fl : flag) (v : bytes) (value : Value) :
  (fuelFor value <= S f)%nat ->
  decodeValueF methods dv fl v value <> Fuel.
Proof.
  intros Hf. unfold decodeValueF.
  destruct (flagRO fl); [discriminate |].
  destruct (asBinaryUnmarshaler methods value) as [call |] eqn:Hm.
  { apply (asBinaryUnmarshaler_returns methods value call v Hm). }
  destruct value as [b | n | b | s | | e l | e | e p | name fields];
    try (destruct (CanSet fl); discriminate); try discriminate.
  - cbn [fuelFor] in Hf.
    assert (Hz : dv flagNew v (zero e) <> Fuel).
    { apply dv_returns. pose proof (fuelFor_zero e). lia. }
    destruct (dv flagNew v (zero e)) as [[[e0 |] elem] | |];
      [| | | contradiction];
      destruct e; try destruct (CanSet fl); discriminate.
  - cbn [fuelFor] in Hf.
    assert (Hz : dv flagNew v (zero e) <> Fuel).
    { apply dv_returns. pose proof (fuelFor_zero e). lia. }
    destruct (dv flagNew v (zero e)) as [[[e0 |] elem] | |];
      [| | | contradiction];
      destruct e; try destruct (CanSet fl); discriminate.
  - destruct (CanSet fl).
    + assert (Hz : dv flagNew v (zero e) <> Fuel).
      { apply dv_returns. pose proof (fuelFor_zero e).
        destruct p; cbn [fuelFor] in Hf; lia. }
      destruct (dv flagNew v (zero e)) as [[[e0 |] elem] | |];
        [discriminate | discriminate | discriminate | contradiction].
    + destruct p as [x |]; [| discriminate].
      cbn [fuelFor] in Hf.
      assert (Hx : dv (flagElem fl) v x <> Fuel) by (apply dv_returns; lia).
      destruct (dv (flagElem fl) v x) as [[err1 x1] | |];
        [discriminate | discriminate | contradiction].
  - cbn [fuelFor] in Hf.
    assert (Hs : decodeStructF dv (NewReader v) fl fields <> Fuel).
    { apply decodeStructF_returns. intros sf fv Hin.
      apply fuelFor_field in Hin. lia. }
    destruct (decodeStructF dv (NewReader v) fl fields)
      as [[[err1 fields1] buf1] | |];
      [discriminate | discriminate | contradiction].
Qed.

End Returns.

Lemma decodeValue_returns (methods : Ty -> option method) (fuel : nat) (fl : flag)
    (v : bytes) (value : Value) :
  (fuelFor value <= fuel)%nat ->
  decodeValue methods fuel fl v value <> Fuel.
Proof.
  revert fl v value.
  induction fuel as [| fuel IH]; intros fl v value Hf.
  - pose proof (fuelFor_pos value). lia.
  - cbn [decodeValue].
    apply (decodeValueF_returns methods (decodeValue methods fuel) fuel).
    + intros fl0 v0 value0 err0 value0'. apply decodeValue_typeOf.
    + intros fl0 v0 value0. apply IH.
    + exact Hf.
Qed.

(** X9: [decode] terminates on every byte stream and for every set of
    declared methods: with a call depth of [fuelFor value] the loop of
    [decode] and the nested calls return or panic, and never run out; for a
    fresh value the nesting depth of its type is enough. *)
Theorem decode_returns (methods : Ty -> option method) (fuel : nat) :
  (forall buf fl value valType,
     (fuelFor value <= fuel)%nat ->
     decode methods fuel buf fl value valType <> Fuel)
  /\ (forall buf fl t valType,
        (tyDepth t <= fuel)%nat ->
        decode methods fuel buf fl (zero t) valType <> Fuel).
Proof.
  assert (Hgen : forall buf fl value valType,
            (fuelFor value <= fuel)%nat ->
            decode methods fuel buf fl value valType <> Fuel).
  { intros buf fl value valType Hf. unfold decode, decodeF.
    apply (decodeLoop_returns (decodeValue methods fuel) fuel).
    - intros fl0 v0 value0 err0 value0'. apply decodeValue_typeOf.
    - intros fl0 v0 value0. apply decodeValue_returns.
    - lia.
    - exact Hf. }
  split; [exact Hgen |].
  intros buf fl t valType Ht. apply Hgen.
  pose proof (fuelFor_zero t). lia.
Qed.

Lemma decode_returns_witness :
  decode noMethods 2 [x07; x01; x05; x07; x09] flagNew (VSlice TUint64 []) 7
  <> Fuel.
Proof.
  apply (proj1 (decode_returns noMethods 2)). vm_compute. repeat constructor.
Defined.

(** ** decodeStruct: errors of the fields *)

(** X11: an optional field swallows every error of its [decode], not only
    the type mismatch: the composite goes on with the next field from
    wherever the failed [decode] left the reader, and the field keeps what
    that [decode] left in it. *)
Theorem decodeStruct_optional_swallows (methods : Ty -> option method)
    (fuel : nat) (buf buf1 buf2 : Reader) (fl : flag)
    (pre pre' post : list (StructField * Value)) (sf : StructField)
    (fv fv' : Value) (tag : structTag) (e : error) :
  decodeStruct methods fuel buf fl pre = Done (None, pre', buf1) ->
  parseTag sf = inl tag -> Implicit tag = false -> Optional tag = true ->
  decode methods fuel buf1 (flagField fl sf) fv (Type_ tag)
  = Done (Some e, fv', buf2) ->
  decodeStruct methods fuel buf fl (pre ++ (sf, fv) :: post)
  = match decodeStruct methods fuel buf2 fl post with
    | Done (err, post', buf3) => Done (err, pre' ++ (sf, fv') :: post', buf3)
    | Panic => Panic
    | Fuel => Fuel
    end.
Proof.
  intros Hpre Htag Himp Hopt Hdec. unfold decodeStruct, decode in *.
  rewrite decodeStructF_app, Hpre. cbn [decodeStructF].
  rewrite Htag, Himp, Hdec, Hopt.
  destruct (decodeStructF (decodeValue methods fuel) buf2 fl post)
    as [[[err post'] buf3] | |]; reflexivity.
Qed.

Lemma decodeStruct_optional_swallows_witness :
  decodeStruct noMethods 1 [x05; xfd; x22; x61; x07; x01; x09] flagNew
    ([] ++ (optional "B" 5, VUint64 0) :: [(required "C" 7, VUint64 0)])
  = Done (None,
          [] ++ (optional "B" 5, VUint64 0) :: [(required "C" 7, VUint64 9)],
          []).
Proof.
  exact (decodeStruct_optional_swallows noMethods 1
           [x05; xfd; x22; x61; x07; x01; x09]
           [x05; xfd; x22; x61; x07; x01; x09] [x07; x01; x09] flagNew
           [] [] [(required "C" 7, VUint64 0)] (optional "B" 5)
           (VUint64 0) (VUint64 0) (mkTag 5 true false) ErrPacketTooLarge
           eq_refl eq_refl eq_refl eq_refl eq_refl).
Defined.

(** X12: a field whose tag does not parse aborts the composite with the
    parse error before anything is read for it, whatever the field and the
    stream are; the fields decoded before it keep their values and the
    later ones are not touched. *)
Theorem decodeStruct_bad_tag (methods : Ty -> option method) (fuel : nat)
    (buf buf1 : Reader) (fl : flag) (pre pre' post : list (StructField * Value))
    (sf : StructField) (fv : Value) (e : error) :
  decodeStruct methods fuel buf fl pre = Done (None, pre', buf1) ->
  parseTag sf = inr e ->
  decodeStruct methods fuel buf fl (pre ++ (sf, fv) :: post)
  = Done (Some e, pre' ++ (sf, fv) :: post, buf1).
Proof.
  intros Hpre Htag. unfold decodeStruct in *.
  rewrite decodeStructF_app, Hpre. cbn [decodeStructF]. rewrite Htag.
  reflexivity.
Qed.

Lemma decodeStruct_bad_tag_witness :
  decodeStruct noMethods 1 [x03; x01; x02; x07; x01; x09] flagNew
    ([(required "A" 3, VUint64 0)]
       ++ (mkField "B" true (inr (ErrOther "tag")), VUint64 0)
       :: [(required "C" 7, VUint64 0)])
  = Done (Some (ErrOther "tag"),
          [(required "A" 3, VUint64 2)]
            ++ (mkField "B" true (inr (ErrOther "tag")), VUint64 0)
            :: [(required "C" 7, VUint64 0)],
          [x07; x01; x09]).
Proof.
  exact (decodeStruct_bad_tag noMethods 1 [x03; x01; x02; x07; x01; x09]
           [x07; x01; x09] flagNew [(required "A" 3, VUint64 0)]
           [(required "A" 3, VUint64 2)] [(required "C" 7, VUint64 0)]
           (mkField "B" true (inr (ErrOther "tag"))) (VUint64 0)
           (ErrOther "tag") eq_refl eq_refl).
Defined.

(** X13: from an empty payload a composite whose tags all parse decodes
    without touching any field; it succeeds exactly when every field is
    implicit or optional, and otherwise returns the error of its first
    required field. *)
Theorem decodeStruct_empty_payload (methods : Ty -> option method) (fuel : nat)
    (fl : flag) (fields : list (StructField * Value)) :
  tagsParse fields ->
  exists err,
    decodeStruct methods fuel (NewReader []) fl fields = Done (err, fields, [])
    /\ (err = None <-> hasRequired fields = false).
Proof.
  unfold decodeStruct, NewReader.
  induction 1 as [| [sf fv] rest [tag Htag] Hrest IH].
  - exists None. cbn. split; [reflexivity | tauto].
  - cbn [fst] in Htag. destruct IH as (err & IH & Herr).
    cbn [decodeStructF hasRequired]. rewrite Htag.
    destruct (Implicit tag).
    + exists err. rewrite IH. cbn [negb andb orb]. split; [reflexivity | exact Herr].
    + destruct (decodeF_absent (decodeValue methods fuel) [] (flagField fl sf)
                  fv (Type_ tag) (or_intror eq_refl)) as [e He].
      rewrite He. cbn [negb andb].
      destruct (Optional tag).
      * exists err. rewrite IH. cbn [negb orb].
        split; [reflexivity | exact Herr].
      * exists (Some e). cbn [negb orb].
        split; [reflexivity | split; discriminate].
Qed.

Lemma decodeStruct_empty_payload_witness :
  exists err,
    decodeStruct noMethods 0 (NewReader []) flagNew
      [(optional "A" 3, VUint64 0);
       (mkField "hidden" false (inl (mkTag 0 false true)), VUint8 x00)]
    = Done (err,
            [(optional "A" 3, VUint64 0);
             (mkField "hidden" false (inl (mkTag 0 false true)), VUint8 x00)],
            [])
    /\ (err = None
        <-> hasRequired
              [(optional "A" 3, VUint64 0);
               (mkField "hidden" false (inl (mkTag 0 false true)), VUint8 x00)]
            = false).
Proof.
  apply (decodeStruct_empty_payload noMethods 0 flagNew).
  repeat constructor; eexists; reflexivity.
Defined.

(** ** Kinds without a case *)

Lemma tyDepth_pos (t : Ty) : (1 <= tyDepth t)%nat.
Proof. destruct t; cbn; lia. Qed.

Lemma decodeValue_unsupported (fuel : nat) (fl : flag) (v : bytes) (value : Value) :
  unsupportedKind (typeOf value) = true ->
  CanSet fl = true ->
  (tyDepth (typeOf value) <= fuel)%nat ->
  decodeValue noMethods fuel fl v value = Done (Some ErrNotSupported, value).
Proof.
  revert fl v value.
  induction fuel as [| fuel IH]; intros fl v value Hk Hset Hd.
  - pose proof (tyDepth_pos (typeOf value)). lia.
  - pose proof (CanSet_flagRO _ Hset) as Hro.
    destruct value as [b | n | b | s | | e l | e | e p | name fields];
      try discriminate Hk.
    + cbn [decodeValue]. unfold decodeValueF. rewrite Hro. reflexivity.
    + cbn [decodeValue]. unfold decodeValueF. rewrite Hro. reflexivity.
    + cbn [typeOf tyDepth] in Hd.
      assert (He : e <> TUint8) by (intros ->; discriminate Hk).
      assert (Hke : unsupportedKind e = true) by (destruct e; try exact Hk; contradiction).
      rewrite decodeValue_slice by (try assumption; reflexivity).
      rewrite (IH flagNew v (zero e)); try reflexivity;
        rewrite typeOf_zero; [exact Hke | lia].
    + cbn [typeOf tyDepth] in Hd.
      assert (He : e <> TUint8) by (intros ->; discriminate Hk).
      assert (Hke : unsupportedKind e = true) by (destruct e; try exact Hk; contradiction).
      rewrite decodeValue_nil_slice by (try assumption; reflexivity).
      rewrite (IH flagNew v (zero e)); try reflexivity;
        rewrite typeOf_zero; [exact Hke | lia].
    + cbn [typeOf tyDepth unsupportedKind] in Hd, Hk.
      rewrite decodeValue_pointer_settable by (try assumption; reflexivity).
      rewrite (IH flagNew v (zero e)); try reflexivity;
        rewrite typeOf_zero; [exact Hk | lia].
Qed.

(** X14: a value whose type ends, through slices and pointers, in a kind the
    decoder has no case for (here [uint8] and [float64]; [[]byte] is not such
    a type) is refused: the record of the expected type is consumed,
    [decode] returns [ErrNotSupported], and the value stays as it was. *)
Theorem decode_unsupported (fuel : nat) (buf buf' : Reader) (fl : flag)
    (value : Value) (valType t : Z) (v : bytes) :
  unsupportedKind (typeOf value) = true ->
  CanSet fl = true ->
  (tyDepth (typeOf value) <= fuel)%nat ->
  Peek buf = valType ->
  readTLV buf = (t, v, None, buf') ->
  decode noMethods fuel buf fl value valType
  = Done (Some ErrNotSupported, value, buf').
Proof.
  intros Hk Hset Hd Hp Hr. unfold decode. rewrite decodeF_unfold.
  rewrite Hp, Z.eqb_refl. cbn [negb]. rewrite Hr.
  rewrite (decodeValue_unsupported fuel fl v value Hk Hset Hd). reflexivity.
Qed.

Lemma decode_unsupported_witness :
  decode noMethods 3 [x07; x01; x05; x08] flagNew
    (VPtr (TSlice TFloat64) None) 7
  = Done (Some ErrNotSupported, VPtr (TSlice TFloat64) None, [x08]).
Proof.
  exact (decode_unsupported 3 [x07; x01; x05; x08] [x08] flagNew
           (VPtr (TSlice TFloat64) None) 7 7 [x05] eq_refl eq_refl
           ltac:(vm_compute; repeat constructor) eq_refl eq_refl).
Defined.

(** ** Unmarshal *)


(** X16: [Unmarshal] needs a pointer: given a boolean, an integer, a text or
    a raw byte sequence by value (no [UnmarshalBinary] declared on its
    type), it panics as soon as a record of the expected type has been
    read. *)
Theorem Unmarshal_by_value_panics (methods : Ty -> option method) (fuel : nat)
    (buf buf' : Reader) (i : Value) (valType t : Z) (v : bytes) :
  storesDirectly i = true ->
  methods (typeOf i) = None ->
  Peek buf = valType ->
  readTLV buf = (t, v, None, buf') ->
  Unmarshal methods (S fuel) buf i valType = Panic.
Proof.
  intros Hi Hm Hp Hr.
  assert (Hd : decodeValue methods (S fuel) (mkFlag false false) v i = Panic).
  { cbn [decodeValue]. unfold decodeValueF. cbn [flagRO].
    rewrite asBinaryUnmarshaler_none;
      [| exact Hm | intros e p ->; discriminate Hi].
    destruct i as [| | | | | e l | e | |]; try discriminate Hi; try reflexivity;
      destruct e; try discriminate Hi; reflexivity. }
  assert (Hgo : decode methods (S fuel) buf (mkFlag false false) i valType = Panic).
  { unfold decode. rewrite decodeF_unfold. rewrite Hp, Z.eqb_refl. cbn [negb].
    rewrite Hr, Hd. reflexivity. }
  destruct i as [| | | | | e l | e | |]; try discriminate Hi; exact Hgo.
Qed.

Lemma Unmarshal_by_value_panics_witness :
  Unmarshal noMethods 1 [x07; x01; x05] (VUint64 0) 7 = Panic.
Proof.
  exact (Unmarshal_by_value_panics noMethods 0 [x07; x01; x05] [] (VUint64 0)
           7 7 [x05] eq_refl eq_refl eq_refl eq_refl).
Defined.

(** ** The methods of [special] (encode_test.go) *)

(** X18: through a non-nil [*special], settable or not, [decodeValue] hands
    the payload to [UnmarshalBinary], and it undoes [MarshalBinary]: from the
    bytes marshalled for a [special] with the byte [f], the referent,
    whatever it held, becomes that [special]; a payload that is not one byte
    long leaves the referent as it was, without an error. *)
Theorem special_round_trip (tagF : structTag + error) (f g : byte) (fuel : nat)
    (fl : flag) (v : bytes) :
  flagRO fl = false ->
  special_MarshalBinary (specialValue tagF f) = Some ([f], None)
  /\ decodeValue testMethods (S fuel) fl [f]
       (VPtr (specialTy tagF) (Some (specialValue tagF g)))
     = Done (None, VPtr (specialTy tagF) (Some (specialValue tagF f)))
  /\ (length v <> 1%nat ->
      decodeValue testMethods (S fuel) fl v
        (VPtr (specialTy tagF) (Some (specialValue tagF g)))
      = Done (None, VPtr (specialTy tagF) (Some (specialValue tagF g)))).
Proof.
  intros Hro. split; [reflexivity |]. split.
  - cbn [decodeValue]. unfold decodeValueF. rewrite Hro. reflexivity.
  - intros Hlen. cbn [decodeValue]. unfold decodeValueF. rewrite Hro.
    destruct v as [| b [| b' v]]; try reflexivity. cbn in Hlen. lia.
Qed.

Lemma special_round_trip_witness :
  special_MarshalBinary (specialValue (inr (ErrOther "tag")) x01)
  = Some ([x01], None)
  /\ decodeValue testMethods 1 flagNew [x01]
       (VPtr (specialTy (inr (ErrOther "tag")))
          (Some (specialValue (inr (ErrOther "tag")) x00)))
     = Done (None,
             VPtr (specialTy (inr (ErrOther "tag")))
               (Some (specialValue (inr (ErrOther "tag")) x01)))
  /\ (length [x01; x02] <> 1%nat ->
      decodeValue testMethods 1 flagNew [x01; x02]
        (VPtr (specialTy (inr (ErrOther "tag")))
           (Some (specialValue (inr (ErrOther "tag")) x00)))
      = Done (None,
              VPtr (specialTy (inr (ErrOther "tag")))
                (Some (specialValue (inr (ErrOther "tag")) x00)))).
Proof.
  exact (special_round_trip (inr (ErrOther "tag")) x01 x00 0 flagNew [x01; x02]
           eq_refl).
Defined.

(** X19: a nil [*special] is never filled in: [decodeValue] calls
    [UnmarshalBinary] on the nil pointer instead of allocating a referent,
    which panics on a payload of one byte and otherwise returns no error
    with the pointer still nil. *)
Theorem special_nil_pointer (tagF : structTag + error) (fuel : nat) (fl : flag)
    (v : bytes) :
  flagRO fl = false ->
  decodeValue testMethods (S fuel) fl v (VPtr (specialTy tagF) None)
  = if (length v =? 1)%nat then Panic
    else Done (None, VPtr (specialTy tagF) None).
Proof.
  intros Hro. cbn [decodeValue]. unfold decodeValueF. rewrite Hro.
  destruct v as [| b [| b' v]]; reflexivity.
Qed.

Lemma special_nil_pointer_witness :
  decodeValue testMethods 1 flagNew [x01]
    (VPtr (specialTy (inr (ErrOther "tag"))) None)
  = if (length [x01] =? 1)%nat then Panic
    else Done (None, VPtr (specialTy (inr (ErrOther "tag"))) None).
Proof.
  exact (special_nil_pointer (inr (ErrOther "tag")) 0 flagNew [x01] eq_refl).
Defined.

(** ** More on fields and numbers *)

(** X20: a required field aborts the composite with whatever error its
    [decode] returns; the composite keeps what was written so far (the
    fields before it, and what the failed [decode] left in the field), the
    later fields are not touched, and the reader stays where the failed
    [decode] left it. *)
Theorem decodeStruct_required_aborts (methods : Ty -> option method)
    (fuel : nat) (buf buf1 buf2 : Reader) (fl : flag)
    (pre pre' post : list (StructField * Value)) (sf : StructField)
    (fv fv' : Value) (tag : structTag) (e : error) :
  decodeStruct methods fuel buf fl pre = Done (None, pre', buf1) ->
  parseTag sf = inl tag -> Implicit tag = false -> Optional tag = false ->
  decode methods fuel buf1 (flagField fl sf) fv (Type_ tag)
  = Done (Some e, fv', buf2) ->
  decodeStruct methods fuel buf fl (pre ++ (sf, fv) :: post)
  = Done (Some e, pre' ++ (sf, fv') :: post, buf2).
Proof.
  intros Hpre Htag Himp Hopt Hdec. unfold decodeStruct, decode in *.
  rewrite decodeStructF_app, Hpre. cbn [decodeStructF].
  rewrite Htag, Himp, Hdec, Hopt. reflexivity.
Qed.

Lemma decodeStruct_required_aborts_witness :
  decodeStruct noMethods 1 [x03; x01; x02; x05; x04; xaa] flagNew
    ([(required "A" 3, VUint64 0)]
       ++ (required "B" 5, VString []) :: [(required "C" 7, VUint64 0)])
  = Done (Some ErrUnexpectedEOF,
          [(required "A" 3, VUint64 2)]
            ++ (required "B" 5, VString []) :: [(required "C" 7, VUint64 0)],
          []).
Proof.
  exact (decodeStruct_required_aborts noMethods 1
           [x03; x01; x02; x05; x04; xaa] [x05; x04; xaa] [] flagNew
           [(required "A" 3, VUint64 0)] [(required "A" 3, VUint64 2)]
           [(required "C" 7, VUint64 0)] (required "B" 5) (VString [])
           (VString []) (mkTag 5 false false) ErrUnexpectedEOF
           eq_refl eq_refl eq_refl eq_refl eq_refl).
Defined.

(** X21: [readVarNum] accepts every width for every number that fits it,
    canonical or not: after the marker 253, 254 or 255, the 2, 4 or 8 bytes
    of a number written most significant byte first give that number back,
    and what follows them is left. *)
Theorem readVarNum_any_width (k : nat) (v : Z) (rest : Reader) :
  0 <= v < 256 ^ Z.of_nat k ->
  (k = 2%nat -> readVarNum (xfd :: beBytes k v ++ rest) = (v, None, rest))
  /\ (k = 4%nat -> readVarNum (xfe :: beBytes k v ++ rest) = (v, None, rest))
  /\ (k = 8%nat -> readVarNum (xff :: beBytes k v ++ rest) = (v, None, rest)).
Proof.
  intros Hv.
  repeat split; intros ->; apply readVarNum_marker; try reflexivity; exact Hv.
Qed.

Lemma readVarNum_any_width_witness :
  readVarNum (xfd :: beBytes 2 5 ++ [x09]) = (5, None, [x09]).
Proof.
  exact (proj1 (readVarNum_any_width 2 5 [x09]
                  ltac:(split; [discriminate | reflexivity])) eq_refl).
Defined.

Lemma decode_uint64_elems (fuel : nat) (fl : flag) (t : Z) (rest : Reader)
    (ps : list bytes) (l0 : list Value) :
  CanSet fl = true -> 0 <= t < 2 ^ 64 ->
  Peek rest <> t \/ rest = [] ->
  Forall (fun p => Z.of_nat (length p) <= maxSize) ps ->
  suppress (decode noMethods (S (S fuel)) (concat (map (writeTLV t) ps) ++ rest)
              fl (VSlice TUint64 l0) t)
  = Done (None,
          VSlice TUint64 (l0 ++ map (fun p => VUint64 (decodeUint64 p)) ps),
          rest).
Proof.
  intros Hset Ht Hrest Hps. revert l0.
  induction Hps as [| p ps Hp Hps IH]; intros l0.
  - cbn [map concat app].
    destruct (decodeF_absent (decodeValue noMethods (S (S fuel))) rest fl
                (VSlice TUint64 l0) t Hrest) as [err Herr].
    unfold decode. rewrite Herr. cbn [suppress]. rewrite app_nil_r. reflexivity.
  - cbn [map concat]. rewrite <- app_assoc.
    unfold decode. rewrite decodeF_unfold.
    rewrite Peek_writeTLV by exact Ht. rewrite Z.eqb_refl. cbn [negb].
    rewrite readTLV_writeTLV by assumption.
    rewrite decodeValue_slice by (try assumption; try reflexivity; discriminate).
    cbn [zero].
    rewrite decodeValue_scalar_uint64 by reflexivity.
    cbn [notRepeated]. rewrite suppress_idempotent.
    unfold decode in IH. rewrite IH. rewrite <- app_assoc. reflexivity.
Qed.

(** X22: a repeated field of integers takes one element per record, in the
    order of the records, after the elements it already holds: from one or
    more records of the field's type (each payload within the size limit,
    of any length), followed by a record of another type or by the end of
    the stream, [decode] appends the value of each payload and leaves the
    reader at what follows.  A field that is nil at the start ends up
    holding the values of the payloads. *)
Theorem decode_repeated_uint64 (fuel : nat) (fl : flag) (t : Z) (rest : Reader)
    (p : bytes) (ps : list bytes) (l0 : list Value) :
  CanSet fl = true -> 0 <= t < 2 ^ 64 ->
  Peek rest <> t \/ rest = [] ->
  Forall (fun q => Z.of_nat (length q) <= maxSize) (p :: ps) ->
  decode noMethods (S (S fuel)) (concat (map (writeTLV t) (p :: ps)) ++ rest)
    fl (VSlice TUint64 l0) t
  = Done (None,
          VSlice TUint64 (l0 ++ map (fun q => VUint64 (decodeUint64 q)) (p :: ps)),
          rest)
  /\ decode noMethods (S (S fuel)) (concat (map (writeTLV t) (p :: ps)) ++ rest)
       fl (VNilSlice TUint64) t
     = Done (None,
             VSlice TUint64 (map (fun q => VUint64 (decodeUint64 q)) (p :: ps)),
             rest).
Proof.
  intros Hset Ht Hrest Hall.
  apply Forall_cons_iff in Hall as [Hp Hps].
  cbn [map concat]. rewrite <- app_assoc.
  unfold decode. rewrite !decodeF_unfold.
  rewrite Peek_writeTLV by exact Ht. rewrite Z.eqb_refl. cbn [negb].
  rewrite readTLV_writeTLV by assumption.
  rewrite decodeValue_slice by (try assumption; try reflexivity; discriminate).
  rewrite decodeValue_nil_slice by (try assumption; try reflexivity; discriminate).
  cbn [zero].
  rewrite decodeValue_scalar_uint64 by reflexivity.
  cbn [notRepeated].
  split.
  - pose proof (decode_uint64_elems fuel fl t rest ps
                  (l0 ++ [VUint64 (decodeUint64 p)]) Hset Ht Hrest Hps) as H.
    unfold decode in H. rewrite H. rewrite <- app_assoc. reflexivity.
  - pose proof (decode_uint64_elems fuel fl t rest ps
                  [VUint64 (decodeUint64 p)] Hset Ht Hrest Hps) as H.
    unfold decode in H. rewrite H. reflexivity.
Qed.

Lemma decode_repeated_uint64_witness :
  decode noMethods 2
    (concat (map (writeTLV 7) [[x05]; [x01; x00]; [x01; x02; x03]]) ++ [x08; x00])
    flagNew (VSlice TUint64 [VUint64 1]) 7
  = Done (None,
          VSlice TUint64
            ([VUint64 1]
               ++ map (fun q => VUint64 (decodeUint64 q))
                    [[x05]; [x01; x00]; [x01; x02; x03]]),
          [x08; x00]).
Proof.
  apply (fun H1 H2 H3 H4 =>
           proj1 (decode_repeated_uint64 0 flagNew 7 [x08; x00] [x05]
                    [[x01; x00]; [x01; x02; x03]] [VUint64 1] H1 H2 H3 H4)).
  - reflexivity.
  - split; [discriminate | reflexivity].
  - left. vm_compute. discriminate.
  - repeat constructor; vm_compute; discriminate.
Defined.
